(** * YouTube competitor outlier tracker: a shallow embedding

    The development follows [youtube_outlier_tracker.py].  Python floats are
    modelled as exact rationals ([Q]); timestamps are microseconds since the
    epoch ([Z]), the resolution of [datetime]; strings are [string].  The two
    external services (the video platform and the record store) are modelled
    explicitly: the platform as a table of responses, the store as a list of
    pages together with a script of HTTP outcomes. *)

From Stdlib Require Import List ZArith QArith Qround Qabs String Ascii Bool Lia Lqa
  ListSet Sorted Permutation.
Import ListNotations.

Open Scope Z_scope.

(** ** Strings *)

Module Str.

(** [str.lower()], on the ASCII range. *)
Definition lower_ascii (c : ascii) : ascii :=
  let n := nat_of_ascii c in
  if (andb (Nat.leb 65 n) (Nat.leb n 90)) then ascii_of_nat (n + 32) else c.

Fixpoint lower (s : string) : string :=
  match s with
  | EmptyString => EmptyString
  | String c s' => String (lower_ascii c) (lower s')
  end.

(** [s.startswith(p)] *)
Fixpoint startswith (p s : string) : bool :=
  match p, s with
  | EmptyString, _ => true
  | String _ _, EmptyString => false
  | String a p', String b s' => andb (Ascii.eqb a b) (startswith p' s')
  end.

(** [p in s] for strings: [p] occurs in [s] as a contiguous substring. *)
Fixpoint contains (p s : string) : bool :=
  orb (startswith p s)
      match s with
      | EmptyString => false
      | String _ s' => contains p s'
      end.

(** [s[1:]] *)
Definition tail (s : string) : string :=
  match s with
  | EmptyString => EmptyString
  | String _ s' => s'
  end.

(** Python truthiness of a string. *)
Definition truthy (s : string) : bool :=
  match s with
  | EmptyString => false
  | String _ _ => true
  end.

(** The declarative reading of "occurs as a substring". *)
Definition occurs_in (p s : string) : Prop :=
  exists pre post, s = (pre ++ p ++ post)%string.

End Str.

(** ** Numbers: Python's [round] on exact rationals *)

Module Num.

Open Scope Q_scope.

(** [round(x)]: nearest integer, ties to the even one. *)
Definition round_half_even (x : Q) : Z :=
  let f := Qfloor x in
  let r := x - inject_Z f in
  match Qcompare r (1 # 2) with
  | Lt => f
  | Gt => (f + 1)%Z
  | Eq => if Z.even f then f else (f + 1)%Z
  end.

(** [round(x, d)]: [d] decimal places, ties to even.  The rounding is that of
    the exact value: where a float is not the decimal it is written as, the
    source may round the other way at a tie. *)
Definition round_ndigits (x : Q) (d : nat) : Q :=
  let s := inject_Z (10 ^ Z.of_nat d) in
  inject_Z (round_half_even (x * s)) / s.

(** Python's [max] on two numbers (first argument wins ties). *)
Definition qmax (a b : Q) : Q := if Qlt_le_dec a b then b else a.

End Num.

(** ** Configuration

    The module-level constants of the script.  The three credentials come
    from the process environment ([None] when the variable is unset). *)

Record Config := {
  YOUTUBE_API_KEY : option string;
  NOTION_API_KEY : option string;
  NOTION_DATABASE_ID : option string;
  OUTLIER_THRESHOLD : Q;
  VIDEOS_FOR_AVERAGE : nat;
  LOOKBACK_HOURS : Z;
  TOPIC_KEYWORDS : list string
}.

(** Truthiness of an environment value: unset and empty are both falsy. *)
Definition env_set (v : option string) : bool :=
  match v with
  | Some s => Str.truthy s
  | None => false
  end.

(** The values written in the script, for given credentials. *)
Definition script_config (yt_key notion_key notion_db : option string) : Config := {|
  YOUTUBE_API_KEY := yt_key;
  NOTION_API_KEY := notion_key;
  NOTION_DATABASE_ID := notion_db;
  OUTLIER_THRESHOLD := 15 # 10;
  VIDEOS_FOR_AVERAGE := 20;
  LOOKBACK_HOURS := 168;
  TOPIC_KEYWORDS :=
    [ "volcano"; "volcanic"; "eruption"; "erupts"; "erupting"; "lava"; "magma";
      "caldera"; "krakatoa"; "vesuvius"; "yellowstone"; "supervolcano";
      "pompeii"; "ash cloud"; "pyroclastic" ]%string
|}.

(** ** Data model *)

(** The dictionary built by [get_video_details] for one video.
    [published_at] is [None] when the publish date could not be parsed. *)
Record VideoSample := {
  id : string;
  title : string;
  published_at : option Z;
  views : Z;
  likes : Z;
  comments : Z;
  url : string;
  thumbnail : string
}.

(** The dictionary appended by [find_outliers]: the video's own fields
    ([**video]) and the five derived, display-rounded ones. *)
Record ClassifiedVideo := {
  video : VideoSample;
  channel_name : string;
  channel_average : Z;
  outlier_score : Q;
  views_per_hour : Z;
  hours_since_upload : Q
}.

(** Durations in microseconds. *)
Definition usec_per_second : Z := 1000000.
Definition usec_per_hour : Z := 3600 * usec_per_second.
Definition usec_per_day : Z := 24 * usec_per_hour.

(** [timedelta.total_seconds()] *)
Definition total_seconds (delta : Z) : Q := inject_Z delta / inject_Z usec_per_second.

(** ** Baseline and classification *)

Definition sum_views (videos : list VideoSample) : Z :=
  fold_right (fun v acc => views v + acc) 0 videos.

Definition calculate_channel_average (videos : list VideoSample) : Q :=
  match videos with
  | [] => 0
  | _ => inject_Z (sum_views videos) / inject_Z (Z.of_nat (List.length videos))
  end.

Definition matches_topic_filter (cfg : Config) (title : string) : bool :=
  match TOPIC_KEYWORDS cfg with
  | [] => true
  | kws =>
      let title_lower := Str.lower title in
      existsb (fun keyword => Str.contains (Str.lower keyword) title_lower) kws
  end.

(** The local [outlier_score] of [find_outliers], before rounding. *)
Definition raw_outlier_score (v : VideoSample) (channel_average : Q) : Q :=
  if Qlt_le_dec 0 channel_average
  then inject_Z (views v) / channel_average
  else 0.

(** The local [hours_since_upload], before rounding. *)
Definition raw_hours_since_upload (now published : Z) : Q :=
  Num.qmax (total_seconds (now - published) / 3600) 1.

(** The local [views_per_hour], before rounding. *)
Definition raw_views_per_hour (now : Z) (v : VideoSample) (published : Z) : Q :=
  inject_Z (views v) / raw_hours_since_upload now published.

(** [TOPIC_KEYWORDS or outlier_score >= OUTLIER_THRESHOLD] *)
Definition passes_threshold (cfg : Config) (score : Q) : bool :=
  match TOPIC_KEYWORDS cfg with
  | [] => if Qlt_le_dec score (OUTLIER_THRESHOLD cfg) then false else true
  | _ :: _ => true
  end.

(** The dictionary literal appended to [outliers]. *)
Definition classified (now : Z) (name : string) (avg : Q) (v : VideoSample)
    (published : Z) : ClassifiedVideo := {|
  video := v;
  channel_name := name;
  channel_average := Num.round_half_even avg;
  outlier_score := Num.round_ndigits (raw_outlier_score v avg) 2;
  views_per_hour := Num.round_half_even (raw_views_per_hour now v published);
  hours_since_upload := Num.round_ndigits (raw_hours_since_upload now published) 1
|}.

(** One iteration of the loop of [find_outliers]: [None] is [continue] (or
    falling through the last [if]), [Some] is the append. *)
Definition classify (cfg : Config) (now : Z) (name : string) (avg : Q)
    (lookback_hours : Z) (v : VideoSample) : option ClassifiedVideo :=
  let cutoff_time := now - lookback_hours * usec_per_hour in
  match published_at v with
  | None => None
  | Some published =>
      if published <? cutoff_time then None
      else
        let score := raw_outlier_score v avg in
        if negb (matches_topic_filter cfg (title v)) then None
        else if passes_threshold cfg score
             then Some (classified now name avg v published)
             else None
  end.

Fixpoint find_outliers (cfg : Config) (now : Z) (name : string)
    (videos : list VideoSample) (avg : Q) (lookback_hours : Z)
    : list ClassifiedVideo :=
  match videos with
  | [] => []
  | v :: rest =>
      match classify cfg now name avg lookback_hours v with
      | Some c => c :: find_outliers cfg now name rest avg lookback_hours
      | None => find_outliers cfg now name rest avg lookback_hours
      end
  end.

(** ** The outside world

    Every request to an external service is recorded in a trace, in the order
    the requests are issued.  The record store is a list of pages; requests to
    it succeed or fail according to a script of outcomes that is consumed one
    request at a time (a request past the end of the script succeeds). *)

Inductive channel_query :=
| ForHandle (handle : string)
| ById (channel_id : string).

Inductive Event :=
| YtChannelsList (q : channel_query)
| YtPlaylistItems (playlist : string) (max_results : nat)
| YtVideosList (ids : list string)
| NotionQuery (before : option Z) (start_cursor : option nat)
| NotionArchive (page : nat)
| NotionCreate (new_url : string).

(** What a request does: answer with status 200, answer with another status,
    or raise an exception in the client. *)
Inductive Outcome := OK | NotOK | Raises.

(** A page of the store.  Only the properties the script reads back are kept:
    the [URL] property and the [Found Date] property (microseconds). *)
Record Page := {
  page_id : nat;
  page_url : string;
  found_date : Z;
  archived : bool
}.

Record World := {
  store : list Page;
  script : list Outcome;
  trace : list Event
}.

Definition log (e : Event) (w : World) : World :=
  {| store := store w; script := script w; trace := trace w ++ [e] |}.

Definition next_outcome (w : World) : Outcome * World :=
  match script w with
  | [] => (OK, w)
  | o :: rest => (o, {| store := store w; script := rest; trace := trace w |})
  end.

Definition set_store (s : list Page) (w : World) : World :=
  {| store := s; script := script w; trace := trace w |}.

(** ** The video platform *)

Record channel_item := {
  item_channel_id : string;
  item_channel_title : string;
  item_uploads : string
}.

(** One item of a [videos().list] response, already decoded: the counts as
    integers and the publish date as a timestamp ([None] when it does not
    parse). *)
Record video_item := {
  item_id : string;
  item_title : string;
  item_published_at : option Z;
  item_views : Z;
  item_likes : Z;
  item_comments : Z;
  item_thumbnail : string
}.

(** The platform's answers; [None] is an [HttpError]. *)
Record YouTube := {
  channels_list : channel_query -> option (list channel_item);
  playlist_items_list : string -> nat -> option (list string);
  videos_list : list string -> option (list video_item)
}.

Record ChannelInfo := {
  info_id : string;
  info_name : string;
  uploads_playlist : string
}.

Definition get_channel_info (yt : YouTube) (channel_identifier : string)
    (w : World) : option ChannelInfo * World :=
  let q :=
    if Str.startswith "@" channel_identifier
    then ForHandle (Str.tail channel_identifier)
    else if Str.startswith "UC" channel_identifier
         then ById channel_identifier
         else ForHandle channel_identifier in
  let w := log (YtChannelsList q) w in
  match channels_list yt q with
  | None => (None, w)
  | Some [] => (None, w)
  | Some (channel :: _) =>
      (Some {| info_id := item_channel_id channel;
               info_name := item_channel_title channel;
               uploads_playlist := item_uploads channel |}, w)
  end.

Definition get_recent_videos (yt : YouTube) (uploads_playlist_id : string)
    (max_results : nat) (w : World) : list string * World :=
  let w := log (YtPlaylistItems uploads_playlist_id max_results) w in
  match playlist_items_list yt uploads_playlist_id max_results with
  | None => ([], w)
  | Some video_ids => (video_ids, w)
  end.

Definition video_of_item (item : video_item) : VideoSample := {|
  id := item_id item;
  title := item_title item;
  published_at := item_published_at item;
  views := item_views item;
  likes := item_likes item;
  comments := item_comments item;
  url := ("https://www.youtube.com/watch?v=" ++ item_id item)%string;
  thumbnail := item_thumbnail item
|}.

(** [video_ids[i:i+50] for i in range(0, len(video_ids), 50)]; the fuel is
    the number of ranges still allowed. *)
Fixpoint batches (fuel : nat) (video_ids : list string) : list (list string) :=
  match fuel, video_ids with
  | _, [] => []
  | O, _ :: _ => []
  | S fuel', _ :: _ => firstn 50 video_ids :: batches fuel' (skipn 50 video_ids)
  end.

Fixpoint fetch_batches (yt : YouTube) (bs : list (list string)) (w : World)
    : list VideoSample * World :=
  match bs with
  | [] => ([], w)
  | batch :: rest =>
      let w := log (YtVideosList batch) w in
      let here :=
        match videos_list yt batch with
        | None => []
        | Some items => map video_of_item items
        end in
      let '(more, w) := fetch_batches yt rest w in
      (here ++ more, w)
  end.

Definition get_video_details (yt : YouTube) (video_ids : list string)
    (w : World) : list VideoSample * World :=
  match video_ids with
  | [] => ([], w)
  | _ => fetch_batches yt (batches (List.length video_ids) video_ids) w
  end.

(** ** One channel of the main loop *)

(** A channel entry of [channels.json], in its dictionary form with a string
    [id].  The model follows the source for entries whose [id] is not empty;
    for an empty [id], or an entry that is a bare string, the source raises
    when it reads the entry, which the model does not represent. *)
Record ChannelEntry := {
  entry_id : string;
  entry_name : option string
}.

(** The body of [for channel_entry in channels_config], returning what is
    added to [all_outliers]. *)
Definition process_channel (cfg : Config) (yt : YouTube) (now : Z)
    (channel_entry : ChannelEntry) (w : World) : list ClassifiedVideo * World :=
  let channel_id := entry_id channel_entry in
  let '(channel_info, w) := get_channel_info yt channel_id w in
  match channel_info with
  | None => ([], w)
  | Some info =>
      let '(video_ids, w) :=
        get_recent_videos yt (uploads_playlist info) (VIDEOS_FOR_AVERAGE cfg) w in
      match video_ids with
      | [] => ([], w)
      | _ =>
          let '(videos, w) := get_video_details yt video_ids w in
          let channel_average := calculate_channel_average videos in
          (find_outliers cfg now (info_name info) videos channel_average
             (LOOKBACK_HOURS cfg), w)
      end
  end.

Fixpoint process_channels (cfg : Config) (yt : YouTube) (now : Z)
    (channels_config : list ChannelEntry) (w : World)
    : list ClassifiedVideo * World :=
  match channels_config with
  | [] => ([], w)
  | channel_entry :: rest =>
      let '(outliers, w) := process_channel cfg yt now channel_entry w in
      let '(more, w) := process_channels cfg yt now rest w in
      (outliers ++ more, w)
  end.

(** ** Ranking: [all_outliers.sort(key=..., reverse=True)]

    Python's sort is stable and [reverse=True] keeps equal keys in their
    original order, so the result is that of inserting each element, from the
    last to the first, in front of the first element whose key is not
    greater. *)

Fixpoint insert_desc (x : ClassifiedVideo) (l : list ClassifiedVideo)
    : list ClassifiedVideo :=
  match l with
  | [] => [x]
  | y :: l' =>
      if Qlt_le_dec (outlier_score x) (outlier_score y)
      then y :: insert_desc x l'
      else x :: l
  end.

Definition sort_by_score (l : list ClassifiedVideo) : list ClassifiedVideo :=
  fold_right insert_desc [] l.

(** ** The record store

    The store answers a database query with the pages that are not archived
    and satisfy the filter, at most [page_size] of them starting at the
    cursor, and says whether more remain.  A cursor is the offset of the next
    page.  The [before] filter of [delete_old_entries] carries a calendar date
    only, represented by its day number; a page satisfies it when its found
    date lies before the start of that day. *)

Definition page_size : nat := 100.

Record QueryData := {
  results : list Page;
  has_more : bool;
  next_cursor : option nat
}.

Definition satisfies (before : option Z) (p : Page) : bool :=
  negb (archived p) &&
  match before with
  | None => true
  | Some day => found_date p <? day * usec_per_day
  end.

Definition answer_query (before : option Z) (start_cursor : option nat)
    (s : list Page) : QueryData :=
  let matching := filter (satisfies before) s in
  let offset := match start_cursor with Some n => n | None => O end in
  let rest := skipn offset matching in
  let more := Nat.ltb page_size (List.length rest) in
  {| results := firstn page_size rest;
     has_more := more;
     next_cursor := if more then Some (offset + page_size)%nat else None |}.

(** What the client sees of a request. *)
Inductive Response (A : Type) :=
| Status200 (body : A)
| StatusOther
| Exception.
Arguments Status200 {A} body.
Arguments StatusOther {A}.
Arguments Exception {A}.

Definition respond {A : Type} (o : Outcome) (body : A) : Response A :=
  match o with
  | OK => Status200 body
  | NotOK => StatusOther
  | Raises => Exception
  end.

(** [POST /v1/databases/{id}/query] *)
Definition notion_query (before : option Z) (start_cursor : option nat)
    (w : World) : Response QueryData * World :=
  let w := log (NotionQuery before start_cursor) w in
  let '(o, w) := next_outcome w in
  (respond o (answer_query before start_cursor (store w)), w).

Definition archive_page (pid : nat) (p : Page) : Page :=
  if Nat.eqb (page_id p) pid
  then {| page_id := page_id p; page_url := page_url p;
          found_date := found_date p; archived := true |}
  else p.

(** [PATCH /v1/pages/{page_id}] with [archived: true]; a request that does
    not succeed leaves the store as it was. *)
Definition notion_archive (pid : nat) (w : World) : Response unit * World :=
  let w := log (NotionArchive pid) w in
  let '(o, w) := next_outcome w in
  match o with
  | OK => (Status200 tt, set_store (map (archive_page pid) (store w)) w)
  | _ => (respond o tt, w)
  end.

Definition fresh_id (s : list Page) : nat := S (list_max (map page_id s)).

(** [POST /v1/pages]: a new page with the given URL and found date. *)
Definition notion_create (new_url : string) (found : Z) (w : World)
    : Response unit * World :=
  let w := log (NotionCreate new_url) w in
  let '(o, w) := next_outcome w in
  match o with
  | OK =>
      let p := {| page_id := fresh_id (store w); page_url := new_url;
                  found_date := found; archived := false |} in
      (Status200 tt, set_store (store w ++ [p]) w)
  | _ => (respond o tt, w)
  end.

Definition notion_configured (cfg : Config) : bool :=
  env_set (NOTION_API_KEY cfg) && env_set (NOTION_DATABASE_ID cfg).

(** ** Retention: [delete_old_entries] *)

(** [strftime("%Y-%m-%d")] of a UTC timestamp, as a day number. *)
Definition date_of (t : Z) : Z := t / usec_per_day.

(** The loop over [results].  A status other than 200 is reported and the loop
    goes on; an exception leaves the loop (it is caught by the handler around
    the whole function body). *)
Fixpoint archive_each (pages : list Page) (w : World) : World :=
  match pages with
  | [] => w
  | page :: rest =>
      match notion_archive (page_id page) w with
      | (Exception, w) => w
      | (_, w) => archive_each rest w
      end
  end.

Definition delete_old_entries (cfg : Config) (now : Z) (days_to_keep : Z)
    (w : World) : World :=
  if negb (notion_configured cfg) then w
  else
    let cutoff_date := date_of (now - days_to_keep * usec_per_day) in
    match notion_query (Some cutoff_date) None w with
    | (Status200 data, w) => archive_each (results data) w
    | (_, w) => w
    end.

(** ** Known keys: [get_existing_video_urls] *)

Definition add_url (page : Page) (existing_urls : set string) : set string :=
  if Str.truthy (page_url page)
  then set_add string_dec (page_url page) existing_urls
  else existing_urls.

Definition add_urls (pages : list Page) (existing_urls : set string) : set string :=
  fold_left (fun acc page => add_url page acc) pages existing_urls.

(** The [while has_more] loop.  [None] means the fuel ran out before the loop
    ended. *)
Fixpoint list_urls (fuel : nat) (existing_urls : set string)
    (start_cursor : option nat) (w : World) : option (set string * World) :=
  match fuel with
  | O => None
  | S fuel' =>
      match notion_query None start_cursor w with
      | (Status200 data, w) =>
          let existing_urls := add_urls (results data) existing_urls in
          if has_more data
          then list_urls fuel' existing_urls (next_cursor data) w
          else Some (existing_urls, w)
      | (_, w) => Some (existing_urls, w)
      end
  end.

Definition get_existing_video_urls (cfg : Config) (w : World)
    : option (set string * World) :=
  if negb (notion_configured cfg) then Some (empty_set string, w)
  else list_urls (S (List.length (store w))) (empty_set string) None w.

(** ** Writing: [send_to_notion] *)

(** The loop over [new_outliers], returning [success_count]. *)
Fixpoint create_each (now : Z) (new_outliers : list ClassifiedVideo) (w : World)
    : nat * World :=
  match new_outliers with
  | [] => (O, w)
  | v :: rest =>
      let '(r, w) := notion_create (url (video v)) now w in
      let '(n, w) := create_each now rest w in
      match r with
      | Status200 _ => (S n, w)
      | _ => (n, w)
      end
  end.

(** [[v for v in outliers if v["url"] not in existing_urls]] *)
Definition not_known (existing_urls : set string) (v : ClassifiedVideo) : bool :=
  negb (set_mem string_dec (url (video v)) existing_urls).

Definition send_to_notion (cfg : Config) (now : Z) (outliers : list ClassifiedVideo)
    (w : World) : option (bool * World) :=
  if negb (notion_configured cfg) then Some (false, w)
  else
    match get_existing_video_urls cfg w with
    | None => None
    | Some (existing_urls, w) =>
        let new_outliers := filter (not_known existing_urls) outliers in
        match new_outliers with
        | [] => Some (true, w)
        | _ =>
            let '(success_count, w) := create_each now new_outliers w in
            Some (Nat.ltb 0 success_count, w)
        end
    end.

(** ** The cycle: [main] *)

Definition main (cfg : Config) (yt : YouTube) (channels_config : list ChannelEntry)
    (now : Z) (w : World) : option World :=
  let w := delete_old_entries cfg now 7 w in
  match channels_config with
  | [] => Some w
  | _ =>
      if negb (env_set (YOUTUBE_API_KEY cfg)) then Some w
      else
        let '(all_outliers, w) := process_channels cfg yt now channels_config w in
        match all_outliers with
        | [] => Some w
        | _ =>
            match send_to_notion cfg now (sort_by_score all_outliers) w with
            | None => None
            | Some (_, w) => Some w
            end
        end
  end.

(** * Vocabulary of the statements, and example worlds *)

(** A title contains a keyword as a case-insensitive substring. *)
Definition contains_ci (keyword title : string) : Prop :=
  Str.occurs_in (Str.lower keyword) (Str.lower title).

(** Scenario C: the keyword list of the script, a title that matches. *)
Definition scenario_c_video : VideoSample := {|
  id := "abc"; title := "Volcano erupts!"; published_at := Some 1000;
  views := 3; likes := 0; comments := 0;
  url := "https://www.youtube.com/watch?v=abc"; thumbnail := ""
|}.

(** ** Ranking *)

(** The order the sort establishes: the stored score does not increase. *)
Definition score_ge (a b : ClassifiedVideo) : Prop :=
  (outlier_score b <= outlier_score a)%Q.

Definition same_score (k : Q) (c : ClassifiedVideo) : bool :=
  Qeq_bool (outlier_score c) k.

(** *** A feed on which rounding decides the order *)

Definition plain_video (i t : string) (published : Z) (n : Z) : video_item := {|
  item_id := i; item_title := t; item_published_at := Some published;
  item_views := n; item_likes := 0; item_comments := 0; item_thumbnail := ""
|}.

(** A platform with one channel, whose uploads are the given items, most
    recent first.  It honours [maxResults] and answers a details request with
    the items it knows, one per requested identifier. *)
Definition lookup_item (items : list video_item) (i : string) : list video_item :=
  match find (fun it => String.eqb (item_id it) i) items with
  | Some it => [it]
  | None => []
  end.

Definition one_channel_feed (channel_title : string) (items : list video_item)
    : YouTube := {|
  channels_list := fun _ =>
    Some [ {| item_channel_id := "UC1"; item_channel_title := channel_title;
              item_uploads := "UU1" |} ];
  playlist_items_list := fun _ max_results =>
    Some (firstn max_results (map item_id items));
  videos_list := fun ids => Some (flat_map (lookup_item items) ids)
|}.

(** One channel whose two recent uploads have 999 and 1001 views. *)
Definition close_feed : YouTube :=
  one_channel_feed "Geo"
    [ plain_video "a" "Lava lake" 0 999; plain_video "b" "Lava flow" 0 1001 ].

Definition empty_world : World := {| store := []; script := []; trace := [] |}.

Definition close_ranking : list ClassifiedVideo :=
  sort_by_score
    (fst (process_channels (script_config (Some "k"%string) None None) close_feed 0
            [ {| entry_id := "UC1"; entry_name := None |} ] empty_world)).

(** The requests a piece of code issued: the trace grew by [evs]. *)
Definition issued (w w' : World) (evs : list Event) : Prop :=
  trace w' = trace w ++ evs /\ store w' = store w /\ script w' = script w.

(** The request [get_channel_info] issues for an identifier. *)
Definition query_for (channel_identifier : string) : channel_query :=
  if Str.startswith "@" channel_identifier
  then ForHandle (Str.tail channel_identifier)
  else if Str.startswith "UC" channel_identifier
       then ById channel_identifier
       else ForHandle channel_identifier.

(** The identifiers the platform lists for a playlist request. *)
Definition listed (yt : YouTube) (playlist : string) (max_results : nat) : list string :=
  match playlist_items_list yt playlist max_results with
  | Some video_ids => video_ids
  | None => []
  end.

(** The videos the platform answers to the details requests [bs], in order. *)
Definition answered (yt : YouTube) (bs : list (list string)) : list VideoSample :=
  flat_map (fun batch =>
              match videos_list yt batch with
              | Some items => map video_of_item items
              | None => []
              end) bs.

(** What C10 says of the outliers [out] of one channel entry and of the world
    [w'] the channel leaves.  Either the channel is not resolved: the lookup
    is the only request and there are no outliers.  Or it is resolved: after
    the lookup there is exactly one playlist request, for at most
    [VIDEOS_FOR_AVERAGE] videos; the details requests that follow cover the
    identifiers it listed, each once and in order; the videos answered to
    those requests are the one list [videos], which is both the list averaged
    and the list classified, so that every classified video is a member of
    the list whose mean it is scored against. *)
Definition scored_against_own_sample (cfg : Config) (yt : YouTube) (now : Z)
    (entry : ChannelEntry) (w : World) (out : list ClassifiedVideo) (w' : World)
    : Prop :=
  let q := query_for (entry_id entry) in
  let n := VIDEOS_FOR_AVERAGE cfg in
  (issued w w' [YtChannelsList q] /\ out = [] /\
   (channels_list yt q = None \/ channels_list yt q = Some [])) \/
  exists channel rest bs,
    channels_list yt q = Some (channel :: rest) /\
    let ids := listed yt (item_uploads channel) n in
    let videos := answered yt bs in
    List.concat bs = ids /\
    issued w w' ([YtChannelsList q; YtPlaylistItems (item_uploads channel) n]
                 ++ map YtVideosList bs) /\
    (List.length ids <= n)%nat /\
    (List.length videos <= n)%nat /\
    out = find_outliers cfg now (item_channel_title channel) videos
            (calculate_channel_average videos) (LOOKBACK_HOURS cfg) /\
    forall c, In c out ->
      channel_average c = Num.round_half_even (calculate_channel_average videos) /\
      outlier_score c =
        Num.round_ndigits
          (raw_outlier_score (video c) (calculate_channel_average videos)) 2 /\
      exists before after,
        videos = before ++ video c :: after /\
        (calculate_channel_average videos ==
         inject_Z (sum_views before + views (video c) + sum_views after)
         / inject_Z (Z.of_nat (List.length videos)))%Q.

(** ** The store requests *)

Definition live (s : list Page) : list Page := filter (satisfies None) s.

Definition offset_of (start_cursor : option nat) : nat :=
  match start_cursor with Some n => n | None => O end.

(** The first [n] requests still to come succeed. *)
Definition first_ok (n : nat) (w : World) : Prop :=
  forall i, (i < n)%nat -> nth i (script w) OK = OK.

Definition is_query (e : Event) : bool :=
  match e with
  | NotionQuery _ _ => true
  | _ => false
  end.

(** ** The writer *)

(** The URLs of the create requests in a trace, in order. *)
Fixpoint creates_of (evs : list Event) : list string :=
  match evs with
  | [] => []
  | NotionCreate u :: rest => u :: creates_of rest
  | _ :: rest => creates_of rest
  end.

Definition candidate_url (c : ClassifiedVideo) : string := url (video c).

(** *** A store of 101 pages whose second page cannot be read *)

Definition numbered_page (found : Z) (n : nat) : Page := {|
  page_id := n;
  page_url := "https://www.youtube.com/watch?v=" ++ String (ascii_of_nat n) "";
  found_date := found;
  archived := false
|}.

Definition notion_config : Config :=
  script_config (Some "yt"%string) (Some "secret"%string) (Some "db"%string).

Definition interrupted_world : World := {|
  store := map (numbered_page 0) (seq 0 101);
  script := [OK; NotOK];
  trace := []
|}.

(** ** Retention *)

Definition mark_archived (p : Page) : Page :=
  {| page_id := page_id p; page_url := page_url p;
     found_date := found_date p; archived := true |}.

(** The store after the pages whose identifier is in [ids] were archived. *)
Definition archive_in (ids : list nat) (p : Page) : Page :=
  if existsb (Nat.eqb (page_id p)) ids then mark_archived p else p.

(** The pages the sweep asks for: not archived, found before the start of
    the calendar day of [now - days_to_keep]. *)
Definition expired (now days_to_keep : Z) (p : Page) : bool :=
  satisfies (Some (date_of (now - days_to_keep * usec_per_day))) p.

Definition is_sweep_request (e : Event) : bool :=
  match e with
  | NotionQuery (Some _) None => true
  | NotionArchive _ => true
  | _ => false
  end.

(** *** Two small stores, swept at noon of day 10 *)

Definition noon_day_10 : Z := 10 * usec_per_day + 12 * usec_per_hour.

(** A page found at 06:00 of day 3: older than seven days at noon of day 10,
    but found on the cutoff day itself. *)
Definition morning_page : Page := numbered_page (3 * usec_per_day + 6 * usec_per_hour) 0.

(** A page found on day 1. *)
Definition old_page : Page := numbered_page usec_per_day 0.

Definition world_of (s : list Page) : World := {| store := s; script := []; trace := [] |}.

(** ** Deduplication *)

(** The URLs of the pages that are not archived. *)
Definition live_urls (s : list Page) : list string := map page_url (live s).

Definition new_page (s : list Page) (u : string) (found : Z) : Page :=
  {| page_id := fresh_id s; page_url := u; found_date := found; archived := false |}.

(** *** The same channel configured twice *)

Definition channel_uc1 : ChannelEntry := {| entry_id := "UC1"; entry_name := None |}.

(** ** Running the cycle twice *)

Definition log_all (evs : list Event) (w : World) : World :=
  {| store := store w; script := script w; trace := trace w ++ evs |}.

Definition has_url (v : VideoSample) : Prop := Str.truthy (url v) = true.

Definition is_platform_request (e : Event) : bool :=
  match e with
  | YtChannelsList _ => true
  | YtPlaylistItems _ _ => true
  | YtVideosList _ => true
  | _ => false
  end.

(** The channels' samples: for each channel its name and its videos. *)
Definition outliers_of (cfg : Config) (now : Z)
    (samples : list (string * list VideoSample)) : list ClassifiedVideo :=
  flat_map (fun s => find_outliers cfg now (fst s) (snd s)
                       (calculate_channel_average (snd s)) (LOOKBACK_HOURS cfg))
           samples.

(** The end of [main]: what is done with [all_outliers]. *)
Definition sync_outliers (cfg : Config) (now : Z) (all_outliers : list ClassifiedVideo)
    (w : World) : option World :=
  match all_outliers with
  | [] => Some w
  | _ =>
      match send_to_notion cfg now (sort_by_score all_outliers) w with
      | None => None
      | Some (_, w) => Some w
      end
  end.

(** *** A first run in which one write is refused *)

Definition refusing_world : World :=
  {| store := []; script := [OK; OK; NotOK]; trace := [] |}.

Definition watch_prefix : string := "https://www.youtube.com/watch?v=".

Definition with_keywords (cfg : Config) (kws : list string) : Config := {|
  YOUTUBE_API_KEY := YOUTUBE_API_KEY cfg;
  NOTION_API_KEY := NOTION_API_KEY cfg;
  NOTION_DATABASE_ID := NOTION_DATABASE_ID cfg;
  OUTLIER_THRESHOLD := OUTLIER_THRESHOLD cfg;
  VIDEOS_FOR_AVERAGE := VIDEOS_FOR_AVERAGE cfg;
  LOOKBACK_HOURS := LOOKBACK_HOURS cfg;
  TOPIC_KEYWORDS := kws
|}.

(** ** The cycle as a whole *)

Definition is_sync_request (e : Event) : bool :=
  match e with
  | NotionQuery None _ => true
  | NotionCreate _ => true
  | _ => false
  end.

(** The outcomes of the next [n] requests. *)
Definition next_outcomes (n : nat) (w : World) : list Outcome :=
  map (fun i => nth i (script w) OK) (seq 0 n).

Definition answered_200 (po : Page * Outcome) : bool :=
  match snd po with
  | OK => true
  | _ => false
  end.

(** The identifiers of the pages whose archive request is answered with
    status 200, when the requests for [pages] are issued in order. *)
Definition archived_by (pages : list Page) (w : World) : list nat :=
  map (fun po => page_id (fst po))
      (filter answered_200 (combine pages (next_outcomes (List.length pages) w))).

(** The candidates of a cycle run at [now]: what the channel loop collects.
    They depend on the feeds and the clock only. *)
Definition candidates_at (cfg : Config) (yt : YouTube)
    (channels_config : list ChannelEntry) (now : Z) : list ClassifiedVideo :=
  fst (process_channels cfg yt now channels_config
         {| store := []; script := []; trace := [] |}).

(** The world in which a cycle started in [w] calls [send_to_notion]: after
    the sweep and the platform requests. *)
Definition sync_world (cfg : Config) (yt : YouTube)
    (channels_config : list ChannelEntry) (now : Z) (w : World) : World :=
  snd (process_channels cfg yt now channels_config (delete_old_entries cfg now 7 w)).

(** The sweep's query, run on the store [s], returns a page with the
    identifier of [p]. *)
Definition selected_by_sweep (now days_to_keep : Z) (s : list Page) (p : Page) : Prop :=
  In (page_id p) (map page_id (filter (expired now days_to_keep) s)).

(** *** A first run whose listing is refused, and a second run a day later *)

Definition listing_refused_world : World :=
  {| store := [old_page]; script := [OK; NotOK]; trace := [] |}.

Definition after_first_run : World :=
  Eval vm_compute in
    match main notion_config close_feed [channel_uc1] 0 listing_refused_world with
    | Some w => w
    | None => empty_world
    end.

(** *** An expired page whose archive request is refused in the first run *)

Definition recent_feed : YouTube :=
  one_channel_feed "Geo"
    [ plain_video "a" "Lava lake" (10 * usec_per_day) 999;
      plain_video "b" "Lava flow" (10 * usec_per_day) 1001 ].

Definition expired_copy : Page := {|
  page_id := 0;
  page_url := "https://www.youtube.com/watch?v=a";
  found_date := usec_per_day;
  archived := false
|}.

Definition archive_refused_world : World :=
  {| store := [expired_copy]; script := [OK; NotOK]; trace := [] |}.

(** * Properties *)

(** ** Strings and rounding *)

Lemma startswith_spec p s :
  Str.startswith p s = true <-> exists post, s = (p ++ post)%string.
Proof.
  revert s; induction p as [|a p IH]; intros s; simpl.
  - split; [intros _; now exists s | reflexivity].
  - destruct s as [|b s].
    + split; [discriminate | intros [post H]; discriminate].
    + rewrite andb_true_iff, Ascii.eqb_eq, IH. split.
      * intros [-> [post ->]]. now exists post.
      * intros [post H]. injection H as -> ->. split; [reflexivity | now exists post].
Qed.

Lemma contains_spec p s : Str.contains p s = true <-> Str.occurs_in p s.
Proof.
  unfold Str.occurs_in. induction s as [|b s IH].
  - simpl. rewrite orb_false_r, startswith_spec. split.
    + intros [post H]. now exists EmptyString, post.
    + intros [pre [post H]]. destruct pre; simpl in H.
      * now exists post.
      * discriminate.
  - cbn [Str.contains]. rewrite orb_true_iff, IH, startswith_spec. split.
    + intros [[post H] | [pre [post H]]].
      * now exists EmptyString, post.
      * exists (String b pre), post. simpl. now rewrite H.
    + intros [pre [post H]]. destruct pre as [|c pre]; simpl in H.
      * left. now exists post.
      * right. injection H as _ H. now exists pre, post.
Qed.

Lemma round_half_even_mono_ge (x : Q) (n : Z) :
  (inject_Z n <= x)%Q -> n <= Num.round_half_even x.
Proof.
  intros H. unfold Num.round_half_even.
  assert (Hn : (n <= Qfloor x)%Z) by (apply Qfloor_resp_le in H; now rewrite Qfloor_Z in H).
  destruct (Qcompare (x - inject_Z (Qfloor x)) (1 # 2))%Q; try destruct (Z.even _); lia.
Qed.

(** ** Classification *)

Lemma find_outliers_In cfg now name videos avg lookback c :
  In c (find_outliers cfg now name videos avg lookback) <->
  exists v, In v videos /\ classify cfg now name avg lookback v = Some c.
Proof.
  induction videos as [|v videos IH]; simpl.
  - split; [tauto | intros [v [[] _]]].
  - destruct (classify cfg now name avg lookback v) as [c'|] eqn:E; simpl; rewrite IH.
    + split.
      * intros [<- | [v' [Hin Hc]]]; [exists v; auto | exists v'; auto].
      * intros [v' [[<- | Hin] Hc]]; [left; congruence | right; exists v'; auto].
    + split.
      * intros [v' [Hin Hc]]; exists v'; auto.
      * intros [v' [[<- | Hin] Hc]]; [congruence | exists v'; auto].
Qed.

Lemma classify_Some cfg now name avg lookback v c :
  classify cfg now name avg lookback v = Some c ->
  exists p, published_at v = Some p /\ c = classified now name avg v p.
Proof.
  unfold classify. destruct (published_at v) as [p|]; [|discriminate].
  destruct (p <? _); [discriminate|].
  destruct (negb _); [discriminate|].
  destruct (passes_threshold _ _); [|discriminate].
  intros [= <-]. now exists p.
Qed.

Lemma matches_topic_filter_spec cfg t :
  TOPIC_KEYWORDS cfg <> [] ->
  (matches_topic_filter cfg t = true <->
   exists keyword, In keyword (TOPIC_KEYWORDS cfg) /\ contains_ci keyword t).
Proof.
  intros Hne. unfold matches_topic_filter, contains_ci.
  destruct (TOPIC_KEYWORDS cfg) as [|k ks] eqn:E; [congruence|].
  rewrite existsb_exists. split.
  - intros [kw [Hin Hc]]. exists kw. split; [assumption | now apply contains_spec].
  - intros [kw [Hin Hc]]. exists kw. split; [assumption | now apply contains_spec].
Qed.

(** What one iteration decides for a video that has a publish date inside the
    lookback window. *)
Lemma classify_in_window cfg now name avg lookback v p :
  published_at v = Some p ->
  now - lookback * usec_per_hour <= p ->
  classify cfg now name avg lookback v =
  if matches_topic_filter cfg (title v) && passes_threshold cfg (raw_outlier_score v avg)
  then Some (classified now name avg v p) else None.
Proof.
  intros Hp Hw. unfold classify. rewrite Hp.
  destruct (Z.ltb_spec p (now - lookback * usec_per_hour)); [lia|].
  destruct (matches_topic_filter cfg (title v)); simpl; reflexivity.
Qed.

(** C3. For a video that survives the timestamp and lookback checks: with a
    non-empty keyword list it is included exactly when its title contains a
    keyword as a case-insensitive substring, whatever its score; with an empty
    keyword list it is included exactly when its score reaches the
    threshold. *)
Theorem inclusion_rule cfg now name videos lookback v p :
  let avg := calculate_channel_average videos in
  In v videos ->
  published_at v = Some p ->
  now - lookback * usec_per_hour <= p ->
  (TOPIC_KEYWORDS cfg <> [] ->
     (In (classified now name avg v p) (find_outliers cfg now name videos avg lookback)
      <-> exists keyword, In keyword (TOPIC_KEYWORDS cfg) /\ contains_ci keyword (title v)))
  /\
  (TOPIC_KEYWORDS cfg = [] ->
     (In (classified now name avg v p) (find_outliers cfg now name videos avg lookback)
      <-> (OUTLIER_THRESHOLD cfg <= raw_outlier_score v avg)%Q)).
Proof.
  intros avg Hin Hp Hw.
  assert (Hmem : In (classified now name avg v p)
                    (find_outliers cfg now name videos avg lookback)
                 <-> classify cfg now name avg lookback v
                     = Some (classified now name avg v p)).
  { rewrite find_outliers_In. split.
    - intros [v' [Hin' Hc]]. destruct (classify_Some _ _ _ _ _ _ _ Hc) as [p' [Hp' Heq]].
      assert (v' = v) by (apply (f_equal video) in Heq; simpl in Heq; congruence).
      now subst v'.
    - intros Hc. exists v. auto. }
  rewrite Hmem, (classify_in_window _ _ _ _ _ _ _ Hp Hw). split.
  - intros Hne. rewrite <- (matches_topic_filter_spec _ _ Hne).
    unfold passes_threshold. destruct (TOPIC_KEYWORDS cfg); [congruence|].
    rewrite andb_true_r. destruct (matches_topic_filter _ _); split; congruence.
  - intros He. unfold matches_topic_filter, passes_threshold. rewrite He. simpl.
    destruct (Qlt_le_dec _ _) as [Hlt | Hle]; split; try congruence; try tauto.
    intros Hle. exfalso. apply (Qlt_not_le _ _ Hlt Hle).
Qed.

Lemma inclusion_rule_witness :
  In (classified 2000 "Ch" (calculate_channel_average [scenario_c_video])
        scenario_c_video 1000)
     (find_outliers (script_config None None None) 2000 "Ch" [scenario_c_video]
        (calculate_channel_average [scenario_c_video]) 168).
Proof.
  apply (proj1 (inclusion_rule (script_config None None None) 2000 "Ch"
                  [scenario_c_video] 168 scenario_c_video 1000
                  (or_introl eq_refl) eq_refl ltac:(vm_compute; discriminate))).
  - discriminate.
  - exists "volcano"%string. split; [simpl; auto|].
    apply contains_spec. reflexivity.
Defined.

(** ** Scores *)

Lemma sum_views_nonneg videos :
  Forall (fun v => 0 <= views v) videos -> 0 <= sum_views videos.
Proof.
  induction 1 as [|v l Hv _ IH]; simpl; lia.
Qed.

Lemma Qdiv_nonneg (a b : Q) : (0 <= a -> 0 < b -> 0 <= a / b)%Q.
Proof.
  intros Ha Hb. apply Qle_shift_div_l; [assumption | lra].
Qed.

Lemma calculate_channel_average_nonneg videos :
  Forall (fun v => 0 <= views v) videos ->
  (0 <= calculate_channel_average videos)%Q.
Proof.
  intros H. unfold calculate_channel_average.
  destruct videos as [|v l] eqn:E; [lra|]. rewrite <- E in *.
  apply Qdiv_nonneg.
  - change 0%Q with (inject_Z 0). rewrite <- Zle_Qle. now apply sum_views_nonneg.
  - change 0%Q with (inject_Z 0). rewrite <- Zlt_Qlt. subst videos. simpl List.length. lia.
Qed.

Lemma round_ndigits_nonneg (x : Q) (d : nat) :
  (0 <= x -> 0 <= Num.round_ndigits x d)%Q.
Proof.
  intros Hx. unfold Num.round_ndigits.
  assert (Hs : (0 < inject_Z (10 ^ Z.of_nat d))%Q).
  { change 0%Q with (inject_Z 0). rewrite <- Zlt_Qlt. apply Z.pow_pos_nonneg; lia. }
  apply Qdiv_nonneg; [|assumption].
  change 0%Q with (inject_Z 0). rewrite <- Zle_Qle.
  apply round_half_even_mono_ge. simpl. apply Qmult_le_0_compat; lra.
Qed.

(** C8. The score computed for a video is views / average when the channel
    average is positive and 0 otherwise; with view counts that are not
    negative it is never negative, and it is 0 only when the average or the
    view count is 0.  The score stored in the classified record is this value
    rounded to two decimals. *)
Theorem outlier_score_value cfg now name videos lookback v c :
  let avg := calculate_channel_average videos in
  Forall (fun v => 0 <= views v) videos ->
  In v videos ->
  classify cfg now name avg lookback v = Some c ->
  let score := raw_outlier_score v avg in
  ((0 < avg -> score == inject_Z (views v) / avg) /\
   (~ 0 < avg -> score == 0) /\
   0 <= score /\
   (score == 0 -> avg == 0 \/ views v = 0%Z) /\
   outlier_score c = Num.round_ndigits score 2 /\
   0 <= outlier_score c)%Q.
Proof.
  intros avg Hall Hin Hc score.
  assert (Hv : 0 <= views v) by (rewrite Forall_forall in Hall; now apply Hall).
  assert (Havg : (0 <= avg)%Q) by now apply calculate_channel_average_nonneg.
  assert (Hvq : (0 <= inject_Z (views v))%Q)
    by (change 0%Q with (inject_Z 0); now rewrite <- Zle_Qle).
  assert (Hs : (0 <= score)%Q).
  { unfold score, raw_outlier_score. destruct (Qlt_le_dec 0 avg); [|lra].
    now apply Qdiv_nonneg. }
  destruct (classify_Some _ _ _ _ _ _ _ Hc) as [p [_ ->]]. simpl.
  repeat split.
  - intros Hpos. unfold score, raw_outlier_score.
    destruct (Qlt_le_dec 0 avg); [reflexivity | lra].
  - intros Hn. unfold score, raw_outlier_score.
    destruct (Qlt_le_dec 0 avg); [tauto | reflexivity].
  - exact Hs.
  - unfold score, raw_outlier_score. destruct (Qlt_le_dec 0 avg) as [Hpos | Hle].
    + intros Hz. right.
      assert (Hq : (inject_Z (views v) == 0)%Q).
      { assert (Hne : ~ avg == 0)
          by (intro E; rewrite E in Hpos; exact (Qlt_irrefl 0 Hpos)).
        rewrite <- (Qmult_div_r (inject_Z (views v)) avg Hne), Hz. ring. }
      change 0%Q with (inject_Z 0) in Hq. now apply (proj1 (inject_Z_injective _ _)) in Hq.
    + intros _. left. lra.
  - now apply round_ndigits_nonneg.
Qed.

Lemma outlier_score_value_witness :
  (0 <= raw_outlier_score scenario_c_video
          (calculate_channel_average [scenario_c_video]))%Q.
Proof.
  refine (proj1 (proj2 (proj2
    (outlier_score_value (script_config None None None) 2000 "Ch"
       [scenario_c_video] 168 scenario_c_video
       (classified 2000 "Ch" (calculate_channel_average [scenario_c_video])
          scenario_c_video 1000) _ (or_introl eq_refl) eq_refl)))).
  repeat constructor. simpl. lia.
Defined.

(** ** Velocity *)

Lemma round_half_even_Z (x : Q) (n : Z) :
  (x == inject_Z n)%Q -> Num.round_half_even x = n.
Proof.
  intros E. unfold Num.round_half_even.
  rewrite (Qfloor_comp _ _ E), Qfloor_Z.
  assert (Hc : Qcompare (x - inject_Z n) (1 # 2) = Lt).
  { rewrite <- Qlt_alt. rewrite E. lra. }
  now rewrite Hc.
Qed.

Lemma round_ndigits_Z (x : Q) (n : Z) (d : nat) :
  (x == inject_Z n)%Q -> (Num.round_ndigits x d == inject_Z n)%Q.
Proof.
  intros E. unfold Num.round_ndigits.
  assert (Hs : (0 < inject_Z (10 ^ Z.of_nat d))%Q).
  { change 0%Q with (inject_Z 0). rewrite <- Zlt_Qlt. apply Z.pow_pos_nonneg; lia. }
  rewrite (round_half_even_Z _ (n * 10 ^ Z.of_nat d)).
  - rewrite inject_Z_mult. field. lra.
  - rewrite E, inject_Z_mult. reflexivity.
Qed.

Lemma round_ndigits_ge_Z (x : Q) (n : Z) (d : nat) :
  (inject_Z n <= x -> inject_Z n <= Num.round_ndigits x d)%Q.
Proof.
  intros Hx. unfold Num.round_ndigits.
  assert (Hs : (0 < inject_Z (10 ^ Z.of_nat d))%Q).
  { change 0%Q with (inject_Z 0). rewrite <- Zlt_Qlt. apply Z.pow_pos_nonneg; lia. }
  apply Qle_shift_div_l; [assumption|].
  rewrite <- inject_Z_mult, <- Zle_Qle.
  apply round_half_even_mono_ge. rewrite inject_Z_mult.
  apply Qmult_le_compat_r; lra.
Qed.

Lemma raw_hours_since_upload_max now p :
  let elapsed := (total_seconds (now - p) / 3600)%Q in
  let h := raw_hours_since_upload now p in
  (1 <= h /\ elapsed <= h /\ (h == 1 \/ h == elapsed))%Q.
Proof.
  unfold raw_hours_since_upload, Num.qmax. simpl.
  destruct (Qlt_le_dec _ 1) as [Hlt | Hle]; repeat split; lra.
Qed.

(** C9. The hours since upload are the larger of 1 and the elapsed hours, so
    never below 1 (also after the display rounding), and the views per hour
    are the views divided by them.  A video published 30 minutes ago with 500
    views gets 1 hour and 500 views per hour. *)
Theorem velocity_clamped now name avg v p :
  let elapsed := (total_seconds (now - p) / 3600)%Q in
  let h := raw_hours_since_upload now p in
  let c := classified now name avg v p in
  ((1 <= h /\ elapsed <= h /\ (h == 1 \/ h == elapsed)) /\
   raw_views_per_hour now v p == inject_Z (views v) / h /\
   (hours_since_upload c = Num.round_ndigits h 1 /\ 1 <= hours_since_upload c) /\
   views_per_hour c = Num.round_half_even (inject_Z (views v) / h) /\
   ((now - p = 1800 * usec_per_second)%Z -> views v = 500%Z ->
      h == 1 /\ raw_views_per_hour now v p == 500 /\
      hours_since_upload c == 1 /\ views_per_hour c = 500%Z))%Q.
Proof.
  intros elapsed h c.
  pose proof (raw_hours_since_upload_max now p) as Hmax. simpl in Hmax.
  fold elapsed h in Hmax. destruct Hmax as [H1 [He Hor]].
  split; [auto|]. split; [reflexivity|]. split; [split; [reflexivity|]|].
  - simpl. fold h. apply (round_ndigits_ge_Z h 1 1). exact H1.
  - split; [reflexivity|].
    intros Hd Hv.
    assert (Hh : (h == 1)%Q).
    { destruct Hor as [|Hor]; [assumption|]. exfalso.
      assert (Hel : (elapsed == 1 # 2)%Q) by (unfold elapsed; rewrite Hd; reflexivity).
      lra. }
    assert (Hvph : (raw_views_per_hour now v p == 500)%Q).
    { unfold raw_views_per_hour. fold h. rewrite Hh, Hv. reflexivity. }
    split; [exact Hh|]. split; [exact Hvph|]. split.
    + simpl. fold h. now apply (round_ndigits_Z h 1 1).
    + simpl. now apply (round_half_even_Z _ 500).
Qed.

Lemma velocity_clamped_witness :
  views_per_hour
    (classified 1800000000 "Ch" 0
       {| id := "d"; title := "t"; published_at := Some 0; views := 500;
          likes := 0; comments := 0; url := "u"; thumbnail := "" |} 0) = 500.
Proof.
  refine (proj2 (proj2 (proj2 (proj2 (proj2 (proj2 (proj2
    (velocity_clamped 1800000000 "Ch" 0
       {| id := "d"; title := "t"; published_at := Some 0; views := 500;
          likes := 0; comments := 0; url := "u"; thumbnail := "" |} 0)))) _ _)))).
  - reflexivity.
  - reflexivity.
Defined.

(** ** Ranking *)

Lemma insert_desc_perm x l : Permutation (x :: l) (insert_desc x l).
Proof.
  induction l as [|y l IH]; simpl; [reflexivity|].
  destruct (Qlt_le_dec _ _); [|reflexivity].
  rewrite perm_swap. now constructor.
Qed.

Lemma insert_desc_sorted x l :
  StronglySorted score_ge l -> StronglySorted score_ge (insert_desc x l).
Proof.
  induction 1 as [|y l Hs IH Hy]; simpl.
  - repeat constructor.
  - destruct (Qlt_le_dec (outlier_score x) (outlier_score y)) as [Hlt | Hle].
    + constructor; [assumption|].
      rewrite <- (insert_desc_perm x l). constructor; [|assumption].
      unfold score_ge. now apply Qlt_le_weak.
    + constructor; [now constructor|].
      constructor; [exact Hle|].
      rewrite Forall_forall in *. intros z Hz. unfold score_ge in *.
      apply Qle_trans with (outlier_score y); auto.
Qed.

Lemma insert_desc_stable k x l :
  filter (same_score k) (insert_desc x l) = filter (same_score k) (x :: l).
Proof.
  induction l as [|y l IH]; [reflexivity|].
  cbn [insert_desc]. destruct (Qlt_le_dec _ _) as [Hlt | Hle]; [|reflexivity].
  cbn [filter] in *. rewrite IH.
  destruct (same_score k x) eqn:Ex, (same_score k y) eqn:Ey; try reflexivity.
  exfalso. unfold same_score in *. apply Qeq_bool_iff in Ex, Ey.
  rewrite Ex, Ey in Hlt. exact (Qlt_irrefl _ Hlt).
Qed.

(** C4, as the code has it. The ranked list is a rearrangement of the
    candidates in which the stored score (the score rounded to two decimals)
    never increases, and candidates with equal stored scores keep the order in
    which they were found. *)
Theorem ranking_sorted_stable (l : list ClassifiedVideo) :
  Permutation l (sort_by_score l) /\
  StronglySorted score_ge (sort_by_score l) /\
  forall k, filter (same_score k) (sort_by_score l) = filter (same_score k) l.
Proof.
  induction l as [|x l [IHp [IHs IHf]]]; simpl.
  - repeat split; constructor.
  - repeat split.
    + rewrite <- insert_desc_perm. now constructor.
    + now apply insert_desc_sorted.
    + intros k. rewrite insert_desc_stable. cbn [filter]. now rewrite IHf.
Qed.

(** C4, as the spec states it, fails: the two uploads score 0.999 and 1.001
    against the channel average of 1000, both are stored as 1.0, and the
    ranking keeps the lower exact score first. *)
Lemma ranking_by_exact_score_counterexample :
  exists a b,
    close_ranking = [a; b] /\
    (calculate_channel_average [video a; video b] == 1000)%Q /\
    (raw_outlier_score (video a) 1000 == 999 # 1000)%Q /\
    (raw_outlier_score (video b) 1000 == 1001 # 1000)%Q /\
    (raw_outlier_score (video a) 1000 < raw_outlier_score (video b) 1000)%Q.
Proof.
  eexists; eexists. split; [vm_compute; reflexivity|].
  repeat split; vm_compute; reflexivity.
Qed.

(** ** What the platform calls leave behind *)

Lemma batches_concat fuel ids :
  (List.length ids <= fuel)%nat -> List.concat (batches fuel ids) = ids.
Proof.
  revert ids. induction fuel as [|fuel IH]; intros ids Hlen.
  - destruct ids; [reflexivity | simpl in Hlen; lia].
  - destruct ids as [|i ids]; [reflexivity|].
    cbn [batches List.concat]. rewrite IH.
    + apply firstn_skipn.
    + rewrite length_skipn. simpl in *. lia.
Qed.

Lemma fetch_batches_length yt bs w :
  (forall ids items, videos_list yt ids = Some items ->
     (List.length items <= List.length ids)%nat) ->
  (List.length (fst (fetch_batches yt bs w)) <= List.length (List.concat bs))%nat.
Proof.
  intros Hdet. revert w. induction bs as [|b bs IH]; intros w; simpl; [lia|].
  specialize (IH (log (YtVideosList b) w)).
  destruct (fetch_batches yt bs (log (YtVideosList b) w)) as [more w'].
  simpl in *. rewrite !length_app.
  destruct (videos_list yt b) as [items|] eqn:E.
  - rewrite length_map. specialize (Hdet _ _ E). lia.
  - simpl. lia.
Qed.

Lemma issued_trans w1 w2 w3 e1 e2 :
  issued w1 w2 e1 -> issued w2 w3 e2 -> issued w1 w3 (e1 ++ e2).
Proof.
  intros [T1 [S1 C1]] [T2 [S2 C2]]. unfold issued.
  rewrite T2, T1, app_assoc. repeat split; congruence.
Qed.

Lemma issued_log e w : issued w (log e w) [e].
Proof. repeat split. Qed.

Lemma issued_refl w : issued w w [].
Proof. unfold issued. now rewrite app_nil_r. Qed.

Lemma fetch_batches_issued yt bs w :
  issued w (snd (fetch_batches yt bs w)) (map YtVideosList bs).
Proof.
  revert w. induction bs as [|b bs IH]; intros w; simpl; [apply issued_refl|].
  specialize (IH (log (YtVideosList b) w)).
  destruct (fetch_batches yt bs (log (YtVideosList b) w)) as [more w'].
  simpl in *. apply (issued_trans _ _ _ [YtVideosList b] _ (issued_log _ w) IH).
Qed.

Lemma fetch_batches_answered yt bs w :
  fst (fetch_batches yt bs w) = answered yt bs.
Proof.
  revert w. induction bs as [|b bs IH]; intros w; simpl; [reflexivity|].
  specialize (IH (log (YtVideosList b) w)).
  destruct (fetch_batches yt bs (log (YtVideosList b) w)) as [more w'].
  simpl in *. now rewrite IH.
Qed.

Lemma find_outliers_video cfg now name videos avg lookback c :
  In c (find_outliers cfg now name videos avg lookback) ->
  In (video c) videos /\
  channel_average c = Num.round_half_even avg /\
  outlier_score c = Num.round_ndigits (raw_outlier_score (video c) avg) 2.
Proof.
  rewrite find_outliers_In. intros [v [Hin Hc]].
  destruct (classify_Some _ _ _ _ _ _ _ Hc) as [p [_ ->]]. simpl. auto.
Qed.

Lemma sum_views_app l1 l2 : sum_views (l1 ++ l2) = sum_views l1 + sum_views l2.
Proof. induction l1; simpl; lia. Qed.

(** C10. For one channel, a single list of at most [VIDEOS_FOR_AVERAGE] videos
    is fetched once (one playlist request, then the details of the listed
    identifiers, each requested once); the average is the mean of the view
    counts of exactly that list, and every classified video of the channel is
    a member of that same list scored against that average, so its own views
    are part of the average. *)
Theorem baseline_is_candidate_list cfg yt now entry w :
  (forall pl n ids, playlist_items_list yt pl n = Some ids ->
     (List.length ids <= n)%nat) ->
  (forall ids items, videos_list yt ids = Some items ->
     (List.length items <= List.length ids)%nat) ->
  scored_against_own_sample cfg yt now entry w
    (fst (process_channel cfg yt now entry w))
    (snd (process_channel cfg yt now entry w)).
Proof.
  intros Hmax Hdet. unfold scored_against_own_sample. cbv zeta.
  unfold process_channel, get_channel_info, get_recent_videos.
  change (if Str.startswith "@" (entry_id entry)
          then ForHandle (Str.tail (entry_id entry))
          else if Str.startswith "UC" (entry_id entry)
               then ById (entry_id entry)
               else ForHandle (entry_id entry))
    with (query_for (entry_id entry)).
  set (q := query_for (entry_id entry)).
  set (w1 := log (YtChannelsList q) w).
  destruct (channels_list yt q) as [[|channel chs]|] eqn:Ech;
    try (left; split; [apply issued_log | split; [reflexivity | auto]]).
  right. exists channel, chs. cbn [uploads_playlist info_name].
  set (n := VIDEOS_FOR_AVERAGE cfg).
  set (w2 := log (YtPlaylistItems (item_uploads channel) n) w1).
  assert (Hw2 : issued w w2 [YtChannelsList q; YtPlaylistItems (item_uploads channel) n]).
  { apply (issued_trans _ w1 _ [_] [_]); apply issued_log. }
  unfold listed.
  destruct (playlist_items_list yt (item_uploads channel) n) as [[|i ids]|] eqn:Epl;
    try (exists []; cbn [fst snd answered flat_map List.concat map List.length];
         rewrite app_nil_r;
         split; [reflexivity|]; split; [reflexivity|]; split; [exact Hw2|];
         split; [lia|]; split; [lia|]; split; [reflexivity|]; intros c []).
  exists (batches (List.length (i :: ids)) (i :: ids)).
  pose proof (fetch_batches_answered yt
                (batches (List.length (i :: ids)) (i :: ids)) w2) as Hans.
  pose proof (fetch_batches_length yt
                (batches (List.length (i :: ids)) (i :: ids)) w2 Hdet) as Hlen.
  pose proof (fetch_batches_issued yt
                (batches (List.length (i :: ids)) (i :: ids)) w2) as Hiss.
  rewrite batches_concat in Hlen by lia.
  change (get_video_details yt (i :: ids) w2)
    with (fetch_batches yt (batches (List.length (i :: ids)) (i :: ids)) w2).
  destruct (fetch_batches yt (batches (List.length (i :: ids)) (i :: ids)) w2)
    as [videos w3]. cbn [fst snd] in *. subst videos.
  set (videos := answered yt (batches (List.length (i :: ids)) (i :: ids))) in *.
  pose proof (Hmax _ _ _ Epl) as Hn.
  split; [reflexivity|]. split; [apply batches_concat; lia|].
  split; [exact (issued_trans _ _ _ _ _ Hw2 Hiss)|].
  split; [exact Hn|]. split; [lia|]. split; [reflexivity|].
  intros c Hc. destruct (find_outliers_video _ _ _ _ _ _ _ Hc) as [Hin [Ha Hs]].
  split; [exact Ha|]. split; [exact Hs|].
  destruct (in_split _ _ Hin) as [before [after Heq]].
  exists before, after. split; [exact Heq|].
  clear Hc Hin Ha Hs Hlen. rewrite Heq. unfold calculate_channel_average.
  destruct (before ++ video c :: after) as [|v0 vs] eqn:Ev.
  - destruct before; discriminate.
  - rewrite <- Ev, sum_views_app. cbn [sum_views fold_right].
    fold (sum_views after). rewrite Z.add_assoc. reflexivity.
Qed.

Lemma one_channel_feed_honours_max name items pl n ids :
  playlist_items_list (one_channel_feed name items) pl n = Some ids ->
  (List.length ids <= n)%nat.
Proof.
  simpl. intros [= <-]. rewrite length_firstn. lia.
Qed.

Lemma one_channel_feed_one_per_id name items ids found :
  videos_list (one_channel_feed name items) ids = Some found ->
  (List.length found <= List.length ids)%nat.
Proof.
  simpl. intros [= <-]. induction ids as [|i ids IH]; simpl; [lia|].
  rewrite length_app. unfold lookup_item at 1.
  destruct (find _ items); simpl; lia.
Qed.

Lemma baseline_is_candidate_list_witness :
  scored_against_own_sample (script_config (Some "k"%string) None None) close_feed 0
    {| entry_id := "UC1"; entry_name := None |} empty_world
    (fst (process_channel (script_config (Some "k"%string) None None) close_feed 0
            {| entry_id := "UC1"; entry_name := None |} empty_world))
    (snd (process_channel (script_config (Some "k"%string) None None) close_feed 0
            {| entry_id := "UC1"; entry_name := None |} empty_world)).
Proof.
  apply (baseline_is_candidate_list (script_config (Some "k"%string) None None)
           close_feed 0 {| entry_id := "UC1"; entry_name := None |} empty_world).
  - apply one_channel_feed_honours_max.
  - apply one_channel_feed_one_per_id.
Defined.

(** ** The store requests *)

Lemma next_outcome_store w : store (snd (next_outcome w)) = store w.
Proof. unfold next_outcome. now destruct (script w). Qed.

Lemma next_outcome_trace w : trace (snd (next_outcome w)) = trace w.
Proof. unfold next_outcome. now destruct (script w). Qed.

Lemma notion_query_store before cur w :
  store (snd (notion_query before cur w)) = store w.
Proof.
  unfold notion_query.
  pose proof (next_outcome_store (log (NotionQuery before cur) w)) as H.
  destruct (next_outcome _) as [o w']. exact H.
Qed.

Lemma notion_query_trace before cur w :
  trace (snd (notion_query before cur w)) = trace w ++ [NotionQuery before cur].
Proof.
  unfold notion_query.
  pose proof (next_outcome_trace (log (NotionQuery before cur) w)) as H.
  destruct (next_outcome _) as [o w']. exact H.
Qed.

(** A query is answered from the store as it is, when the request succeeds. *)
Lemma notion_query_answer before cur w :
  fst (notion_query before cur w) =
  respond (fst (next_outcome w)) (answer_query before cur (store w)).
Proof.
  unfold notion_query, next_outcome, log. simpl.
  destruct (script w); reflexivity.
Qed.

Lemma notion_query_script before cur w :
  script (snd (notion_query before cur w)) = List.tl (script w).
Proof.
  unfold notion_query, next_outcome, log. simpl.
  destruct (script w); reflexivity.
Qed.

(** ** Known keys *)

Lemma add_urls_app pages1 pages2 acc :
  add_urls (pages1 ++ pages2) acc = add_urls pages2 (add_urls pages1 acc).
Proof. unfold add_urls. apply fold_left_app. Qed.

Lemma add_url_mem u page acc :
  set_In u (add_url page acc) <->
  set_In u acc \/ (page_url page = u /\ Str.truthy u = true).
Proof.
  unfold add_url. destruct (Str.truthy (page_url page)) eqn:E.
  - split.
    + intros H. apply set_add_elim in H. destruct H as [-> | H]; auto.
    + intros [H | [<- _]]; [now apply set_add_intro1 | now apply set_add_intro2].
  - split; [auto|]. intros [H | [<- H]]; [assumption | congruence].
Qed.

Lemma add_urls_mem u pages acc :
  set_In u (add_urls pages acc) <->
  set_In u acc \/ (exists p, In p pages /\ page_url p = u /\ Str.truthy u = true).
Proof.
  revert acc. induction pages as [|p pages IH]; intros acc.
  - simpl. split; [auto | intros [H | [p [[] _]]]; assumption].
  - change (add_urls (p :: pages) acc) with (add_urls pages (add_url p acc)).
    rewrite IH, add_url_mem. split.
    + intros [[H | H] | [q [Hq H]]]; auto.
      * right. exists p. simpl. auto.
      * right. exists q. simpl. auto.
    + intros [H | [q [[<- | Hq] H]]]; auto.
      right. exists q. auto.
Qed.

(** The listing loop ends: the fuel [get_existing_video_urls] starts with is
    more than the number of pages left to read. *)
Lemma list_urls_total fuel acc cur w :
  (List.length (skipn (offset_of cur) (live (store w))) < fuel * page_size)%nat ->
  exists urls w', list_urls fuel acc cur w = Some (urls, w').
Proof.
  revert acc cur w. induction fuel as [|fuel IH]; intros acc cur w Hlen; [simpl in Hlen; lia|].
  cbn [list_urls].
  pose proof (notion_query_answer None cur w) as Ha.
  pose proof (notion_query_store None cur w) as Hs.
  destruct (notion_query None cur w) as [r w1]. simpl in Ha, Hs.
  destruct r as [data| |]; try (eexists; eexists; reflexivity).
  assert (Hd : data = answer_query None cur (store w)).
  { destruct (fst (next_outcome w)); simpl in Ha; congruence. }
  destruct (has_more data) eqn:Hm; [|eexists; eexists; reflexivity].
  apply IH. rewrite Hs. subst data. unfold answer_query in *. cbn [has_more next_cursor] in *.
  fold (live (store w)) in *. fold (offset_of cur) in *. rewrite Hm. cbn [offset_of].
  apply Nat.ltb_lt in Hm.
  rewrite Nat.add_comm, <- skipn_skipn, length_skipn. unfold page_size in *. lia.
Qed.

Lemma get_existing_video_urls_total cfg w :
  exists urls w', get_existing_video_urls cfg w = Some (urls, w').
Proof.
  unfold get_existing_video_urls. destruct (negb _); [eexists; eexists; reflexivity|].
  apply list_urls_total. simpl offset_of. rewrite skipn_O.
  unfold live. pose proof (filter_length_le (satisfies None) (store w)).
  unfold page_size. lia.
Qed.

Lemma first_ok_head n w : first_ok (S n) w -> fst (next_outcome w) = OK.
Proof.
  intros H. specialize (H O ltac:(lia)). unfold next_outcome.
  destruct (script w); simpl in *; auto.
Qed.

Lemma first_ok_tail n w w' :
  script w' = List.tl (script w) -> first_ok (S n) w -> first_ok n w'.
Proof.
  intros Hs H i Hi. rewrite Hs. specialize (H (S i) ltac:(lia)).
  destruct (script w); simpl in *; [now destruct i | assumption].
Qed.

Lemma first_ok_le n m w : (m <= n)%nat -> first_ok n w -> first_ok m w.
Proof. intros Hle H i Hi. apply H. lia. Qed.

Lemma query_succeeds before cur w n :
  first_ok (S n) w ->
  exists w', notion_query before cur w = (Status200 (answer_query before cur (store w)), w')
             /\ store w' = store w /\ script w' = List.tl (script w)
             /\ trace w' = trace w ++ [NotionQuery before cur].
Proof.
  intros Hok.
  pose proof (notion_query_answer before cur w) as Ha.
  pose proof (notion_query_store before cur w) as Hs.
  pose proof (notion_query_script before cur w) as Hc.
  pose proof (notion_query_trace before cur w) as Ht.
  rewrite (first_ok_head _ _ Hok) in Ha.
  destruct (notion_query before cur w) as [r w']. simpl in *. subst r.
  exists w'. auto.
Qed.

Lemma query_fails before cur w :
  fst (next_outcome w) <> OK ->
  exists r w', notion_query before cur w = (r, w')
             /\ (r = StatusOther \/ r = Exception)
             /\ store w' = store w /\ script w' = List.tl (script w)
             /\ trace w' = trace w ++ [NotionQuery before cur].
Proof.
  intros Hno.
  pose proof (notion_query_answer before cur w) as Ha.
  pose proof (notion_query_store before cur w) as Hs.
  pose proof (notion_query_script before cur w) as Hc.
  pose proof (notion_query_trace before cur w) as Ht.
  destruct (notion_query before cur w) as [r w']. simpl in *.
  exists r, w'. repeat split; auto.
  destruct (fst (next_outcome w)); simpl in Ha; [congruence | auto | auto].
Qed.

Lemma skipn_live_step cur s :
  skipn (offset_of (Some (offset_of cur + page_size)%nat)) (live s) =
  skipn page_size (skipn (offset_of cur) (live s)).
Proof. cbn [offset_of]. now rewrite Nat.add_comm, skipn_skipn. Qed.

Lemma firstn_plus {A : Type} (a b : nat) (l : list A) :
  firstn (a + b) l = firstn a l ++ firstn b (skipn a l).
Proof.
  revert l. induction a as [|a IH]; intros l; [reflexivity|].
  destruct l as [|x l]; simpl; [now rewrite firstn_nil | now rewrite IH].
Qed.

(** The listing only reads: it issues queries, one outcome each, and leaves
    the store as it was. *)
Lemma list_urls_effects fuel : forall acc cur w urls w',
  list_urls fuel acc cur w = Some (urls, w') ->
  store w' = store w /\
  exists evs, trace w' = trace w ++ evs /\
              Forall (fun e => is_query e = true) evs /\
              script w' = skipn (List.length evs) (script w).
Proof.
  induction fuel as [|fuel IH]; intros acc cur w urls w' H; [discriminate|].
  cbn [list_urls] in H.
  pose proof (notion_query_store None cur w) as Hs.
  pose proof (notion_query_script None cur w) as Hc.
  pose proof (notion_query_trace None cur w) as Ht.
  destruct (notion_query None cur w) as [r w1]. simpl in Hs, Hc, Ht.
  assert (Hone : store w1 = store w /\
            exists evs, trace w1 = trace w ++ evs /\
              Forall (fun e => is_query e = true) evs /\
              script w1 = skipn (List.length evs) (script w)).
  { split; [assumption|]. exists [NotionQuery None cur].
    repeat split; auto; try (rewrite Hc; simpl; now destruct (script w)). }
  destruct r as [data| |]; try (injection H as <- <-; exact Hone).
  destruct (has_more data); [|injection H as <- <-; exact Hone].
  destruct (IH _ _ _ _ _ H) as [Hs' [evs [Ht' [Hq Hc']]]].
  split; [congruence|]. exists (NotionQuery None cur :: evs).
  split; [rewrite Ht', Ht, <- app_assoc; reflexivity|].
  split; [constructor; auto|].
  rewrite Hc', Hc. simpl. destruct (script w); [now rewrite skipn_nil | reflexivity].
Qed.

(** When every request of the listing succeeds, the known set holds the URL
    of every page that is not archived. *)
Lemma list_urls_complete n : forall fuel acc cur w,
  first_ok n w ->
  (0 < n)%nat ->
  (List.length (skipn (offset_of cur) (live (store w))) <= n * page_size)%nat ->
  (n <= fuel)%nat ->
  exists w',
    list_urls fuel acc cur w
      = Some (add_urls (skipn (offset_of cur) (live (store w))) acc, w').
Proof.
  induction n as [|n IH]; intros fuel acc cur w Hok Hpos Hlen Hfuel; [lia|].
  destruct fuel as [|fuel]; [lia|]. cbn [list_urls].
  destruct (query_succeeds None cur w n Hok) as [w1 [-> [Hs [Hc _]]]].
  unfold answer_query. cbn [results has_more next_cursor].
  fold (live (store w)). fold (offset_of cur).
  set (rest := skipn (offset_of cur) (live (store w))) in *.
  destruct (Nat.ltb_spec page_size (List.length rest)) as [Hm | Hm].
  - destruct (IH fuel (add_urls (firstn page_size rest) acc)
                (Some (offset_of cur + page_size)%nat) w1) as [w' Hw'].
    + now apply (first_ok_tail n w).
    + unfold page_size in *. lia.
    + rewrite Hs, skipn_live_step. fold rest. rewrite length_skipn.
      unfold page_size in *. lia.
    + lia.
    + exists w'. rewrite Hw'. rewrite Hs, skipn_live_step. fold rest.
      now rewrite <- add_urls_app, firstn_skipn.
  - exists w1. now rewrite firstn_all2 by exact Hm.
Qed.

(** When the first [k] requests succeed, each with more pages to come, and
    the next one fails, the known set holds the URLs of the [k] pages read. *)
Lemma list_urls_interrupted k : forall fuel acc cur w,
  first_ok k w ->
  nth k (script w) OK <> OK ->
  (k = 0 \/ k * page_size < List.length (skipn (offset_of cur) (live (store w))))%nat ->
  (k < fuel)%nat ->
  exists w',
    list_urls fuel acc cur w
      = Some (add_urls (firstn (k * page_size)
                          (skipn (offset_of cur) (live (store w)))) acc, w').
Proof.
  induction k as [|k IH]; intros fuel acc cur w Hok Hfail Hlen Hfuel;
    (destruct fuel as [|fuel]; [lia|]); cbn [list_urls].
  - destruct (query_fails None cur w) as [r [w1 [-> [Hr _]]]].
    + unfold next_outcome. destruct (script w); simpl in *; auto.
    + exists w1. destruct Hr as [-> | ->]; reflexivity.
  - destruct (query_succeeds None cur w k Hok) as [w1 [-> [Hs [Hc _]]]].
    unfold answer_query. cbn [results has_more next_cursor].
    fold (live (store w)). fold (offset_of cur).
    set (rest := skipn (offset_of cur) (live (store w))) in *.
    assert (Hm : (page_size < List.length rest)%nat) by (unfold page_size in *; lia).
    apply Nat.ltb_lt in Hm. rewrite Hm. apply Nat.ltb_lt in Hm.
    destruct (IH fuel (add_urls (firstn page_size rest) acc)
                (Some (offset_of cur + page_size)%nat) w1) as [w' Hw'].
    + now apply (first_ok_tail k w).
    + rewrite Hc. destruct (script w); simpl in *; [now destruct k | assumption].
    + rewrite Hs, skipn_live_step. fold rest. rewrite length_skipn.
      unfold page_size in *. lia.
    + lia.
    + exists w'. rewrite Hw'. rewrite Hs, skipn_live_step. fold rest.
      rewrite <- add_urls_app. do 2 f_equal.
      change (S k * page_size)%nat with (page_size + k * page_size)%nat.
      rewrite firstn_plus. reflexivity.
Qed.

(** ** The writer *)

Lemma creates_of_app evs1 evs2 :
  creates_of (evs1 ++ evs2) = creates_of evs1 ++ creates_of evs2.
Proof.
  induction evs1 as [|e evs1 IH]; [reflexivity|].
  destruct e; simpl; now rewrite IH.
Qed.

Lemma creates_of_queries evs :
  Forall (fun e => is_query e = true) evs -> creates_of evs = [].
Proof.
  induction 1 as [|e evs He _ IH]; [reflexivity|].
  destruct e; simpl in *; try discriminate. exact IH.
Qed.

Lemma notion_create_trace u now w :
  trace (snd (notion_create u now w)) = trace w ++ [NotionCreate u].
Proof.
  unfold notion_create, next_outcome, log. simpl.
  destruct (script w) as [|[| |] rest]; reflexivity.
Qed.

(** The writer issues one create request per new outlier, in order, whatever
    the outcomes. *)
Lemma create_each_trace now new w :
  trace (snd (create_each now new w)) =
  trace w ++ map NotionCreate (map candidate_url new).
Proof.
  revert w. induction new as [|c new IH]; intros w; simpl.
  - now rewrite app_nil_r.
  - pose proof (notion_create_trace (url (video c)) now w) as Ht.
    destruct (notion_create (url (video c)) now w) as [r w1]. simpl in Ht.
    specialize (IH w1). destruct (create_each now new w1) as [n w2]. simpl in IH.
    assert (Hw : trace w2 = trace w ++ NotionCreate (candidate_url c)
                              :: map NotionCreate (map candidate_url new)).
    { rewrite IH, Ht, <- app_assoc. reflexivity. }
    destruct r; exact Hw.
Qed.

Lemma creates_of_creates us : creates_of (map NotionCreate us) = us.
Proof. induction us; simpl; congruence. Qed.

Lemma send_to_notion_unfold cfg now outliers w known w1 :
  notion_configured cfg = true ->
  get_existing_video_urls cfg w = Some (known, w1) ->
  exists b,
    send_to_notion cfg now outliers w =
    Some (b, snd (create_each now (filter (not_known known) outliers) w1)).
Proof.
  intros Hcfg Hknown. unfold send_to_notion. rewrite Hcfg, Hknown. simpl.
  destruct (filter (not_known known) outliers) as [|c new]; [now exists true|].
  destruct (create_each now (c :: new) w1) as [n w2]. now eexists.
Qed.

(** C7, as the code has it. When the listing fails after [k] pages were read,
    the loop stops without aborting and the known set is made of the URLs of
    those [k] pages: it is empty when the very first request fails.  The
    cycle goes on: the candidates not in that set are handed to the writer. *)
Theorem listing_failure_keeps_pages_read cfg now outliers w k :
  notion_configured cfg = true ->
  first_ok k w ->
  nth k (script w) OK <> OK ->
  (k = 0 \/ k * page_size < List.length (live (store w)))%nat ->
  let known := add_urls (firstn (k * page_size) (live (store w))) (empty_set string) in
  exists w1 b w',
    get_existing_video_urls cfg w = Some (known, w1) /\
    (k = O -> known = empty_set string) /\
    send_to_notion cfg now outliers w = Some (b, w') /\
    creates_of (trace w') =
      creates_of (trace w) ++ map candidate_url (filter (not_known known) outliers).
Proof.
  intros Hcfg Hok Hfail Hk known.
  assert (Hlive : (List.length (live (store w)) <= List.length (store w))%nat)
    by apply filter_length_le.
  destruct (list_urls_interrupted k (S (List.length (store w))) (empty_set string)
              None w Hok Hfail) as [w1 Hw1].
  { simpl offset_of. rewrite skipn_O. exact Hk. }
  { unfold page_size in *. lia. }
  simpl offset_of in Hw1. rewrite skipn_O in Hw1. fold known in Hw1.
  assert (Hget : get_existing_video_urls cfg w = Some (known, w1)).
  { unfold get_existing_video_urls. now rewrite Hcfg. }
  destruct (send_to_notion_unfold cfg now outliers w known w1 Hcfg Hget) as [b Hb].
  exists w1, b, (snd (create_each now (filter (not_known known) outliers) w1)).
  split; [exact Hget|]. split; [intros ->; reflexivity|]. split; [exact Hb|].
  rewrite create_each_trace, creates_of_app, creates_of_creates.
  f_equal.
  destruct (list_urls_effects _ _ _ _ _ _ Hw1) as [_ [evs [-> [Hq _]]]].
  now rewrite creates_of_app, (creates_of_queries _ Hq), app_nil_r.
Qed.

(** C7, as the spec states it, fails: the first page is read, the request for
    the second page is refused, and the known set keeps the 100 URLs of the
    first page instead of being empty. *)
Lemma listing_failure_not_empty_counterexample :
  exists known w',
    get_existing_video_urls notion_config interrupted_world = Some (known, w') /\
    nth 1 (script interrupted_world) OK = NotOK /\
    trace w' = [NotionQuery None None; NotionQuery None (Some 100%nat)] /\
    List.length known = 100%nat /\
    known <> empty_set string.
Proof.
  eexists; eexists. split; [vm_compute; reflexivity|].
  repeat split; discriminate.
Qed.

Lemma listing_failure_keeps_pages_read_witness :
  exists w1,
    get_existing_video_urls notion_config interrupted_world =
    Some (add_urls (firstn (1 * page_size) (live (store interrupted_world)))
            (empty_set string), w1).
Proof.
  destruct (listing_failure_keeps_pages_read notion_config 0 [] interrupted_world 1)
    as [w1 [_ [_ [H _]]]].
  - reflexivity.
  - intros [|i] Hi; [reflexivity | lia].
  - discriminate.
  - right. vm_compute. lia.
  - exists w1. exact H.
Defined.

(** ** Retention *)

Lemma archive_in_cons pid ids p :
  archive_in ids (archive_page pid p) = archive_in (pid :: ids) p.
Proof.
  unfold archive_in, archive_page. cbn [existsb].
  destruct (Nat.eqb (page_id p) pid) eqn:E; simpl.
  - now destruct (existsb _ ids).
  - reflexivity.
Qed.

Lemma archive_in_nil s : map (archive_in []) s = s.
Proof. induction s as [|p s IH]; [reflexivity|]. simpl. now rewrite IH. Qed.

Lemma notion_archive_effects pid w :
  let r := fst (notion_archive pid w) in
  let w' := snd (notion_archive pid w) in
  trace w' = trace w ++ [NotionArchive pid] /\
  script w' = List.tl (script w) /\
  (fst (next_outcome w) = OK -> r = Status200 tt /\ store w' = map (archive_page pid) (store w)) /\
  (fst (next_outcome w) <> OK -> r <> Status200 tt /\ store w' = store w) /\
  (r = Exception <-> fst (next_outcome w) = Raises).
Proof.
  unfold notion_archive, next_outcome, log, set_store. simpl.
  destruct (script w) as [|[| |] rest]; simpl; repeat split; intros;
    try discriminate; try congruence; auto.
Qed.

(** What the archive loop does to the store: some of the requested pages are
    archived, nothing else changes; it issues archive requests only. *)
Lemma archive_each_effects pages : forall w,
  exists archived_ids evs,
    incl archived_ids (map page_id pages) /\
    store (archive_each pages w) = map (archive_in archived_ids) (store w) /\
    trace (archive_each pages w) = trace w ++ evs /\
    Forall (fun e => is_sweep_request e = true) evs.
Proof.
  induction pages as [|page pages IH]; intros w.
  - exists [], []. simpl. rewrite archive_in_nil, app_nil_r.
    repeat split; auto. intros x [].
  - cbn [archive_each].
    destruct (notion_archive_effects (page_id page) w) as [Ht [_ [Hok [Hno Hex]]]].
    destruct (notion_archive (page_id page) w) as [r w1]. simpl in Ht, Hok, Hno, Hex.
    destruct (IH w1) as [ids [evs [Hin [Hs [Ht' Hq]]]]].
    assert (Hstop : exists archived_ids evs0,
              incl archived_ids (map page_id (page :: pages)) /\
              store w1 = map (archive_in archived_ids) (store w) /\
              trace w1 = trace w ++ evs0 /\
              Forall (fun e => is_sweep_request e = true) evs0).
    { destruct (fst (next_outcome w)) eqn:Eo.
      - destruct Hok as [_ Hs1]; [reflexivity|].
        exists [page_id page], [NotionArchive (page_id page)].
        repeat split; auto.
        + intros x [<- | []]. now left.
        + rewrite Hs1. apply map_ext. intros p.
          now rewrite <- archive_in_cons.
      - destruct Hno as [_ Hs1]; [discriminate|].
        exists [], [NotionArchive (page_id page)].
        rewrite archive_in_nil. repeat split; auto. intros x [].
      - destruct Hno as [_ Hs1]; [discriminate|].
        exists [], [NotionArchive (page_id page)].
        rewrite archive_in_nil. repeat split; auto. intros x []. }
    assert (Hgo : exists archived_ids evs0,
              incl archived_ids (map page_id (page :: pages)) /\
              store (archive_each pages w1) = map (archive_in archived_ids) (store w) /\
              trace (archive_each pages w1) = trace w ++ evs0 /\
              Forall (fun e => is_sweep_request e = true) evs0).
    { destruct (fst (next_outcome w)) eqn:Eo.
      - destruct Hok as [_ Hs1]; [reflexivity|].
        exists (page_id page :: ids), (NotionArchive (page_id page) :: evs).
        repeat split.
        + intros x [<- | Hx]; [now left | right; now apply Hin].
        + rewrite Hs, Hs1, map_map. apply map_ext. intros p. apply archive_in_cons.
        + rewrite Ht', Ht, <- app_assoc. reflexivity.
        + constructor; auto.
      - destruct Hno as [_ Hs1]; [discriminate|].
        exists ids, (NotionArchive (page_id page) :: evs).
        repeat split.
        + intros x Hx. right. now apply Hin.
        + now rewrite Hs, Hs1.
        + rewrite Ht', Ht, <- app_assoc. reflexivity.
        + constructor; auto.
      - destruct Hno as [_ Hs1]; [discriminate|].
        exists ids, (NotionArchive (page_id page) :: evs).
        repeat split.
        + intros x Hx. right. now apply Hin.
        + now rewrite Hs, Hs1.
        + rewrite Ht', Ht, <- app_assoc. reflexivity.
        + constructor; auto. }
    destruct r; [exact Hgo | exact Hgo | exact Hstop].
Qed.

(** When every archive request succeeds, all the requested pages are
    archived. *)
Lemma archive_each_complete pages : forall w,
  first_ok (List.length pages) w ->
  store (archive_each pages w) = map (archive_in (map page_id pages)) (store w) /\
  script (archive_each pages w) = skipn (List.length pages) (script w).
Proof.
  induction pages as [|page pages IH]; intros w Hok.
  - simpl. now rewrite archive_in_nil.
  - cbn [archive_each].
    destruct (notion_archive_effects (page_id page) w) as [_ [Hc [Hok1 _]]].
    destruct (notion_archive (page_id page) w) as [r w1]. simpl in Hc, Hok1.
    destruct Hok1 as [-> Hs1]; [exact (first_ok_head _ _ Hok)|].
    destruct (IH w1) as [Hs Hsc]; [exact (first_ok_tail _ _ _ Hc Hok)|].
    split.
    + rewrite Hs, Hs1, map_map. apply map_ext. intros p. apply archive_in_cons.
    + rewrite Hsc, Hc. simpl. destruct (script w); [now rewrite skipn_nil | reflexivity].
Qed.

Lemma expired_is_older now days p :
  expired now days p = true ->
  archived p = false /\ found_date p < now - days * usec_per_day.
Proof.
  unfold expired, satisfies, date_of. rewrite andb_true_iff, negb_true_iff.
  intros [Ha Hf]. split; [exact Ha|]. apply Z.ltb_lt in Hf.
  pose proof (Z.mul_div_le (now - days * usec_per_day) usec_per_day ltac:(reflexivity)).
  lia.
Qed.

Lemma answer_query_first_page before s :
  results (answer_query before None s) = firstn page_size (filter (satisfies before) s).
Proof. reflexivity. Qed.

Lemma incl_firstn {A : Type} n (l : list A) : incl (firstn n l) l.
Proof.
  intros x Hx. rewrite <- (firstn_skipn n l). apply in_or_app. now left.
Qed.

Lemma delete_old_entries_effects cfg now days w :
  exists archived_ids evs,
    incl archived_ids (map page_id (filter (expired now days) (store w))) /\
    store (delete_old_entries cfg now days w) = map (archive_in archived_ids) (store w) /\
    trace (delete_old_entries cfg now days w) = trace w ++ evs /\
    Forall (fun e => is_sweep_request e = true) evs.
Proof.
  unfold delete_old_entries.
  assert (Hnothing : forall w1 evs,
            store w1 = store w -> trace w1 = trace w ++ evs ->
            Forall (fun e => is_sweep_request e = true) evs ->
            exists archived_ids evs0,
              incl archived_ids (map page_id (filter (expired now days) (store w))) /\
              store w1 = map (archive_in archived_ids) (store w) /\
              trace w1 = trace w ++ evs0 /\
              Forall (fun e => is_sweep_request e = true) evs0).
  { intros w1 evs Hs Ht Hq. exists [], evs. rewrite archive_in_nil.
    repeat split; auto. intros x []. }
  destruct (negb (notion_configured cfg)).
  { apply (Hnothing w []); auto. now rewrite app_nil_r. }
  set (day := date_of (now - days * usec_per_day)).
  pose proof (notion_query_answer (Some day) None w) as Ha.
  pose proof (notion_query_store (Some day) None w) as Hs.
  pose proof (notion_query_trace (Some day) None w) as Ht.
  destruct (notion_query (Some day) None w) as [r w1]. simpl in Ha, Hs, Ht.
  destruct r as [data| |];
    try (apply (Hnothing w1 [NotionQuery (Some day) None]); auto).
  assert (Hd : data = answer_query (Some day) None (store w)).
  { destruct (fst (next_outcome w)); simpl in Ha; congruence. }
  destruct (archive_each_effects (results data) w1) as [ids [evs [Hin [Hs' [Ht' Hq]]]]].
  exists ids, (NotionQuery (Some day) None :: evs). repeat split.
  - intros x Hx. apply Hin in Hx. subst data. rewrite answer_query_first_page in Hx.
    apply in_map_iff in Hx. destruct Hx as [p [<- Hp]].
    apply in_map. now apply incl_firstn in Hp.
  - now rewrite Hs', Hs.
  - rewrite Ht', Ht, <- app_assoc. reflexivity.
  - constructor; auto.
Qed.

Lemma delete_old_entries_complete cfg now days w :
  notion_configured cfg = true ->
  (List.length (filter (expired now days) (store w)) <= page_size)%nat ->
  first_ok (S (List.length (filter (expired now days) (store w)))) w ->
  store (delete_old_entries cfg now days w) =
    map (archive_in (map page_id (filter (expired now days) (store w)))) (store w) /\
  script (delete_old_entries cfg now days w) =
    skipn (S (List.length (filter (expired now days) (store w)))) (script w).
Proof.
  intros Hcfg Hfew Hok. unfold delete_old_entries. rewrite Hcfg. simpl negb. cbv iota.
  set (day := date_of (now - days * usec_per_day)).
  destruct (query_succeeds (Some day) None w _ Hok) as [w1 [-> [Hs [Hc _]]]].
  rewrite answer_query_first_page.
  change (satisfies (Some day)) with (expired now days).
  rewrite firstn_all2 by exact Hfew.
  destruct (archive_each_complete (filter (expired now days) (store w)) w1) as [Hs' Hc'].
  - rewrite <- Hs in *. exact (first_ok_tail _ _ _ Hc Hok).
  - rewrite Hs', Hc', Hs, Hc. split; [reflexivity|].
    destruct (script w); [now rewrite skipn_nil | reflexivity].
Qed.

Lemma archive_in_expired now days s :
  NoDup (map page_id s) ->
  map (archive_in (map page_id (filter (expired now days) s))) s =
  map (fun p => if expired now days p then mark_archived p else p) s.
Proof.
  intros Hnd. apply map_ext_in. intros p Hp. unfold archive_in.
  destruct (expired now days p) eqn:E.
  - assert (H : existsb (Nat.eqb (page_id p))
                  (map page_id (filter (expired now days) s)) = true).
    { apply existsb_exists. exists (page_id p). split; [|apply Nat.eqb_refl].
      apply in_map, filter_In. auto. }
    now rewrite H.
  - destruct (existsb _ _) eqn:H; [|reflexivity]. exfalso.
    apply existsb_exists in H. destruct H as [i [Hi He]].
    apply Nat.eqb_eq in He. subst i.
    apply in_map_iff in Hi. destruct Hi as [q [Hq Hin]].
    apply filter_In in Hin. destruct Hin as [Hqs Hqe].
    assert (q = p); [|congruence].
    clear E Hqe. induction s as [|a s IH]; [destruct Hp|].
    simpl in Hnd. inversion Hnd as [|? ? Hna Hnd']; subst.
    destruct Hp as [-> | Hp], Hqs as [-> | Hqs]; auto.
    + exfalso. apply Hna. rewrite <- Hq. now apply in_map.
    + exfalso. apply Hna. rewrite Hq. now apply in_map.
Qed.

(** C5, as the code has it. The sweeper compares calendar dates: it asks the
    store for the pages found before the start of the UTC day of
    [now - retention_days] and archives pages among those only, all of which
    are strictly older than [now - retention_days]; every other page stays as
    it is.  When the pages asked for fit the one page of results that is read
    and every request succeeds, exactly those pages are archived. *)
Theorem retention_archives_before_cutoff_day cfg now days w :
  NoDup (map page_id (store w)) ->
  let w' := delete_old_entries cfg now days w in
  (exists archived_ids,
     incl archived_ids (map page_id (filter (expired now days) (store w))) /\
     store w' = map (archive_in archived_ids) (store w)) /\
  (forall p, expired now days p = true ->
     archived p = false /\ found_date p < now - days * usec_per_day) /\
  (notion_configured cfg = true ->
   (List.length (filter (expired now days) (store w)) <= page_size)%nat ->
   first_ok (S (List.length (filter (expired now days) (store w)))) w ->
   store w' = map (fun p => if expired now days p then mark_archived p else p) (store w)).
Proof.
  intros Hnd w'. split; [|split].
  - destruct (delete_old_entries_effects cfg now days w) as [ids [evs [Hin [Hs _]]]].
    exists ids. auto.
  - apply expired_is_older.
  - intros Hcfg Hfew Hok.
    destruct (delete_old_entries_complete cfg now days w Hcfg Hfew Hok) as [Hs _].
    unfold w'. rewrite Hs. now apply archive_in_expired.
Qed.

(** C5, as the spec states it, fails: the page is strictly older than
    [now - 7 days], every request succeeds, and the page is not archived. *)
Lemma retention_exact_cutoff_counterexample :
  found_date morning_page < noon_day_10 - 7 * usec_per_day /\
  archived morning_page = false /\
  store (delete_old_entries notion_config noon_day_10 7 (world_of [morning_page]))
    = [morning_page] /\
  trace (delete_old_entries notion_config noon_day_10 7 (world_of [morning_page]))
    = [NotionQuery (Some 3) None].
Proof. repeat split. Qed.

Lemma retention_archives_before_cutoff_day_witness :
  store (delete_old_entries notion_config noon_day_10 7 (world_of [old_page]))
    = [mark_archived old_page].
Proof.
  refine (proj2 (proj2
    (retention_archives_before_cutoff_day notion_config noon_day_10 7
       (world_of [old_page]) _)) _ _ _).
  - repeat constructor. intros [].
  - reflexivity.
  - vm_compute. lia.
  - intros i _. simpl. now destruct i.
Defined.

(** ** No channels *)

(** C6, as the code has it. Without channels the cycle is the retention sweep
    and nothing more: the requests issued are the sweep's query and archive
    requests, so no page is created and the video platform is not called. *)
Theorem no_channels_only_sweeps cfg yt now w :
  main cfg yt [] now w = Some (delete_old_entries cfg now 7 w) /\
  exists archived_ids evs,
    incl archived_ids (map page_id (filter (expired now 7) (store w))) /\
    store (delete_old_entries cfg now 7 w) = map (archive_in archived_ids) (store w) /\
    trace (delete_old_entries cfg now 7 w) = trace w ++ evs /\
    Forall (fun e => is_sweep_request e = true) evs.
Proof.
  split; [reflexivity|]. apply delete_old_entries_effects.
Qed.

(** C6, as the spec states it, fails: with no channel configured the cycle
    still archives the expired page before it stops. *)
Lemma no_channels_still_archives_counterexample :
  exists w',
    main notion_config close_feed [] noon_day_10 (world_of [old_page]) = Some w' /\
    trace w' = [NotionQuery (Some 3) None; NotionArchive 0] /\
    store w' = [mark_archived old_page] /\
    store w' <> store (world_of [old_page]).
Proof.
  eexists. split; [reflexivity|]. repeat split. discriminate.
Qed.

(** ** Deduplication *)

Lemma notion_create_effects u found w :
  let r := fst (notion_create u found w) in
  let w' := snd (notion_create u found w) in
  script w' = List.tl (script w) /\
  (fst (next_outcome w) = OK ->
     r = Status200 tt /\ store w' = store w ++ [new_page (store w) u found]) /\
  (fst (next_outcome w) <> OK -> r <> Status200 tt /\ store w' = store w).
Proof.
  unfold notion_create, next_outcome, log, set_store, new_page. simpl.
  destruct (script w) as [|[| |] rest]; simpl; repeat split; intros;
    try discriminate; try congruence; auto.
Qed.

Lemma live_urls_snoc s u found :
  live_urls (s ++ [new_page s u found]) = live_urls s ++ [u].
Proof.
  unfold live_urls, live. now rewrite filter_app, map_app.
Qed.

Lemma NoDup_map_filter {A B : Type} (f : A -> B) (g : A -> bool) (l : list A) :
  NoDup (map f l) -> NoDup (map f (filter g l)).
Proof.
  induction l as [|a l IH]; simpl; intros H; [constructor|].
  inversion H as [|? ? Hn Hd]; subst. destruct (g a); simpl; auto.
  constructor; auto. intros Hin. apply Hn.
  apply in_map_iff in Hin. destruct Hin as [x [Hx Hin]].
  apply filter_In in Hin. rewrite <- Hx. apply in_map. tauto.
Qed.

(** Writing candidates whose URLs are distinct and not yet in the store
    leaves the live URLs distinct, whichever requests fail. *)
Lemma create_each_nodup now new : forall w,
  NoDup (live_urls (store w) ++ map candidate_url new) ->
  NoDup (live_urls (store (snd (create_each now new w)))).
Proof.
  induction new as [|c new IH]; intros w Hnd.
  - simpl in *. now rewrite app_nil_r in Hnd.
  - cbn [create_each].
    destruct (notion_create_effects (url (video c)) now w) as [_ [Hok Hno]].
    destruct (notion_create (url (video c)) now w) as [r w1]. simpl in Hok, Hno.
    specialize (IH w1). destruct (create_each now new w1) as [n w2]. simpl in IH.
    assert (Hw2 : NoDup (live_urls (store w2))).
    { apply IH. destruct (fst (next_outcome w)) eqn:Eo.
      - destruct Hok as [_ ->]; [reflexivity|].
        rewrite live_urls_snoc, <- app_assoc. exact Hnd.
      - destruct Hno as [_ ->]; [discriminate|].
        simpl in Hnd. now apply NoDup_remove_1 in Hnd.
      - destruct Hno as [_ ->]; [discriminate|].
        simpl in Hnd. now apply NoDup_remove_1 in Hnd. }
    destruct r; exact Hw2.
Qed.

Lemma not_known_spec known c :
  not_known known c = true <-> ~ set_In (candidate_url c) known.
Proof.
  unfold not_known, candidate_url. rewrite negb_true_iff. split.
  - intros H Hin. apply (set_mem_correct2 string_dec) in Hin. congruence.
  - intros H. destruct (set_mem string_dec (url (video c)) known) eqn:E; [|reflexivity].
    apply set_mem_correct1 in E. contradiction.
Qed.

Lemma get_existing_video_urls_complete cfg w n :
  notion_configured cfg = true ->
  first_ok n w -> (0 < n)%nat ->
  (List.length (live (store w)) <= n * page_size)%nat ->
  exists w1,
    get_existing_video_urls cfg w
      = Some (add_urls (live (store w)) (empty_set string), w1).
Proof.
  intros Hcfg Hok Hpos Hlen. unfold get_existing_video_urls. rewrite Hcfg. simpl negb. cbv iota.
  assert (Hl : (List.length (live (store w)) <= List.length (store w))%nat)
    by apply filter_length_le.
  set (m := Nat.min n (S (List.length (store w)))).
  destruct (list_urls_complete m (S (List.length (store w))) (empty_set string) None w)
    as [w1 Hw1].
  - apply (first_ok_le n); [apply Nat.le_min_l | assumption].
  - unfold m. lia.
  - simpl offset_of. rewrite skipn_O. unfold m, page_size in *.
    destruct (Nat.min_spec n (S (List.length (store w)))) as [[_ ->] | [_ ->]]; lia.
  - apply Nat.le_min_r.
  - simpl offset_of in Hw1. rewrite skipn_O in Hw1. eauto.
Qed.

(** C1, as the code has it. Every create request is for a candidate whose URL
    is not in the known set the listing returned.  When the listing succeeds
    completely, the live pages had distinct URLs and the candidates have
    distinct, non-empty URLs, the live pages still have distinct URLs after
    the writes. *)
Theorem dedup_against_known_set cfg now outliers w :
  exists known w1 b w' written,
    get_existing_video_urls cfg w = Some (known, w1) /\
    send_to_notion cfg now outliers w = Some (b, w') /\
    creates_of (trace w') = creates_of (trace w) ++ written /\
    (forall u, In u written ->
       ~ set_In u known /\ exists c, In c outliers /\ candidate_url c = u) /\
    (notion_configured cfg = true ->
       written = map candidate_url (filter (not_known known) outliers)) /\
    (forall n,
       first_ok n w -> (0 < n)%nat ->
       (List.length (live (store w)) <= n * page_size)%nat ->
       NoDup (live_urls (store w)) ->
       NoDup (map candidate_url outliers) ->
       Forall (fun c => Str.truthy (candidate_url c) = true) outliers ->
       NoDup (live_urls (store w'))).
Proof.
  destruct (get_existing_video_urls_total cfg w) as [known [w1 Hk]].
  destruct (notion_configured cfg) eqn:Hcfg.
  - destruct (send_to_notion_unfold cfg now outliers w known w1 Hcfg Hk) as [b Hb].
    set (new := filter (not_known known) outliers) in *.
    assert (Hl : store w1 = store w /\ creates_of (trace w1) = creates_of (trace w)).
    { unfold get_existing_video_urls in Hk. rewrite Hcfg in Hk. simpl in Hk.
      change (list_urls (S (List.length (store w))) (empty_set string) None w
              = Some (known, w1)) in Hk.
      destruct (list_urls_effects _ _ _ _ _ _ Hk) as [Hs [evs [-> [Hq _]]]].
      now rewrite creates_of_app, (creates_of_queries _ Hq), app_nil_r. }
    destruct Hl as [Hs1 Hc1].
    exists known, w1, b, (snd (create_each now new w1)), (map candidate_url new).
    split; [exact Hk|]. split; [exact Hb|]. split; [|split; [|split]].
    + now rewrite create_each_trace, creates_of_app, creates_of_creates, Hc1.
    + intros u Hu. apply in_map_iff in Hu. destruct Hu as [c [<- Hc]].
      apply filter_In in Hc. destruct Hc as [Hin Hnk].
      split; [now apply not_known_spec | eauto].
    + reflexivity.
    + intros n Hok Hpos Hlen Hnd Hcand Hurl.
      destruct (get_existing_video_urls_complete cfg w n Hcfg Hok Hpos Hlen) as [w1' Hk'].
      rewrite Hk in Hk'. injection Hk' as Hknown _.
      apply create_each_nodup. rewrite Hs1. apply NoDup_app.
      * exact Hnd.
      * now apply NoDup_map_filter.
      * intros u Hlive Hnew. apply in_map_iff in Hnew. destruct Hnew as [c [Hu Hc]].
        apply filter_In in Hc. destruct Hc as [Hin Hnk].
        apply not_known_spec in Hnk. apply Hnk. rewrite Hknown, Hu.
        apply add_urls_mem. right.
        unfold live_urls in Hlive. apply in_map_iff in Hlive.
        destruct Hlive as [p [Hp Hpl]]. exists p. repeat split; auto.
        rewrite Forall_forall in Hurl. rewrite <- Hu. now apply Hurl.
  - exists known, w1, false, w, [].
    split; [exact Hk|]. split; [unfold send_to_notion; now rewrite Hcfg|].
    split; [now rewrite app_nil_r|]. split; [intros u []|]. split; [discriminate|].
    intros. assumption.
Qed.

Lemma dedup_against_known_set_witness :
  exists b w',
    send_to_notion notion_config 0 close_ranking (world_of [old_page]) = Some (b, w') /\
    NoDup (live_urls (store w')).
Proof.
  destruct (dedup_against_known_set notion_config 0 close_ranking (world_of [old_page]))
    as [known [w1 [b [w' [written [_ [Hs [_ [_ [_ Hnd]]]]]]]]]].
  exists b, w'. split; [exact Hs|]. apply (Hnd 1%nat).
  - intros i _. simpl. now destruct i.
  - lia.
  - vm_compute. lia.
  - vm_compute. repeat constructor. intros [].
  - vm_compute. repeat constructor; simpl; intuition discriminate.
  - vm_compute. repeat constructor.
Defined.

(** C1, as the spec states it, fails: the channel is listed twice, so each of
    its two videos is a candidate twice; neither URL is in the (empty) store,
    all four candidates are written, and the store ends with two pairs of
    pages that share a URL. *)
Lemma duplicate_candidates_counterexample :
  exists w',
    main notion_config close_feed [channel_uc1; channel_uc1] 0 (world_of []) = Some w' /\
    map page_url (store w') =
      [ "https://www.youtube.com/watch?v=a"; "https://www.youtube.com/watch?v=b";
        "https://www.youtube.com/watch?v=a"; "https://www.youtube.com/watch?v=b" ]%string /\
    Forall (fun p => archived p = false) (store w') /\
    ~ NoDup (live_urls (store w')).
Proof.
  eexists. split; [vm_compute; reflexivity|].
  split; [reflexivity|]. split; [repeat constructor|].
  vm_compute. intros H. inversion H as [|? ? Hn _]; subst. apply Hn. simpl. auto.
Qed.

(** ** Running the cycle twice *)

Lemma log_all_log e evs w : log_all evs (log e w) = log_all (e :: evs) w.
Proof. unfold log_all, log. simpl. now rewrite <- app_assoc. Qed.

Lemma log_all_nil w : log_all [] w = w.
Proof. unfold log_all. rewrite app_nil_r. now destruct w. Qed.

Lemma log_all_app e1 e2 w : log_all e2 (log_all e1 w) = log_all (e1 ++ e2) w.
Proof. unfold log_all. simpl. now rewrite app_assoc. Qed.

Lemma log_twice a b w : log b (log a w) = log_all [a; b] w.
Proof. unfold log_all, log. simpl. now rewrite <- app_assoc. Qed.

Lemma fetch_batches_pure yt bs :
  exists videos, Forall has_url videos /\
    forall w, fetch_batches yt bs w = (videos, log_all (map YtVideosList bs) w).
Proof.
  induction bs as [|b bs [more [Hurl IH]]].
  - exists []. split; [constructor|]. intros w. simpl. now rewrite log_all_nil.
  - exists (match videos_list yt b with
            | Some items => map video_of_item items
            | None => []
            end ++ more).
    split.
    + apply Forall_app. split; [|exact Hurl].
      destruct (videos_list yt b) as [items|]; [|constructor].
      apply Forall_forall. intros v Hv. apply in_map_iff in Hv.
      destruct Hv as [item [<- _]]. reflexivity.
    + intros w. simpl. rewrite IH, log_all_log. reflexivity.
Qed.

Lemma platform_requests_no_create evs :
  Forall (fun e => is_platform_request e = true) evs -> creates_of evs = [].
Proof.
  induction 1 as [|e evs He _ IH]; [reflexivity|].
  destruct e; simpl in *; try discriminate; exact IH.
Qed.

Lemma videos_list_requests bs :
  Forall (fun e => is_platform_request e = true) (map YtVideosList bs).
Proof. induction bs; simpl; constructor; auto. Qed.

Lemma process_channel_requests cfg yt entry :
  exists name videos evs,
    Forall has_url videos /\
    Forall (fun e => is_platform_request e = true) evs /\
    forall now w,
      process_channel cfg yt now entry w =
      (find_outliers cfg now name videos (calculate_channel_average videos)
         (LOOKBACK_HOURS cfg),
       log_all evs w).
Proof.
  unfold process_channel, get_channel_info, get_recent_videos.
  set (q := if Str.startswith "@" (entry_id entry) then _ else _).
  destruct (channels_list yt q) as [[|channel chs]|];
    try (exists EmptyString, [], [YtChannelsList q];
         split; [constructor | split; [repeat constructor | intros; reflexivity]]).
  cbn [uploads_playlist info_name].
  set (pl := YtPlaylistItems (item_uploads channel) (VIDEOS_FOR_AVERAGE cfg)).
  destruct (playlist_items_list yt (item_uploads channel) (VIDEOS_FOR_AVERAGE cfg))
    as [[|i ids]|];
    try (exists EmptyString, [], [YtChannelsList q; pl];
         split; [constructor
                | split; [repeat constructor | intros; now rewrite log_twice]]).
  unfold get_video_details.
  destruct (fetch_batches_pure yt (batches (List.length (i :: ids)) (i :: ids)))
    as [videos [Hurl Hv]].
  exists (item_channel_title channel), videos,
    ([YtChannelsList q; pl]
     ++ map YtVideosList (batches (List.length (i :: ids)) (i :: ids))).
  split; [exact Hurl|]. split.
  - apply Forall_app. split; [repeat constructor | apply videos_list_requests].
  - intros now w. rewrite Hv, log_twice, log_all_app. reflexivity.
Qed.

Lemma process_channels_requests cfg yt channels_config :
  exists samples evs,
    Forall (fun s => Forall has_url (snd s)) samples /\
    Forall (fun e => is_platform_request e = true) evs /\
    forall now w,
      process_channels cfg yt now channels_config w =
      (outliers_of cfg now samples, log_all evs w).
Proof.
  induction channels_config as [|e es [samples [evs [Hurl [Hc IH]]]]].
  - exists [], []. split; [constructor|]. split; [constructor|].
    intros now w. simpl. now rewrite log_all_nil.
  - destruct (process_channel_requests cfg yt e) as [name [videos [evs1 [Hu1 [Hc1 H1]]]]].
    exists ((name, videos) :: samples), (evs1 ++ evs).
    split; [constructor; auto|]. split; [apply Forall_app; auto|].
    intros now w. cbn [process_channels]. rewrite H1, IH, log_all_app. reflexivity.
Qed.

Lemma process_channels_pure cfg yt channels_config :
  exists samples evs,
    Forall (fun s => Forall has_url (snd s)) samples /\
    creates_of evs = [] /\
    forall now w,
      process_channels cfg yt now channels_config w =
      (outliers_of cfg now samples, log_all evs w).
Proof.
  destruct (process_channels_requests cfg yt channels_config)
    as [samples [evs [Hu [Hp H]]]].
  exists samples, evs. split; [exact Hu|].
  split; [now apply platform_requests_no_create | exact H].
Qed.

(** A later clock reading only narrows the lookback window. *)
Lemma classify_later cfg now now' name avg lookback v c' :
  now <= now' ->
  classify cfg now' name avg lookback v = Some c' ->
  exists c, classify cfg now name avg lookback v = Some c /\
            candidate_url c = candidate_url c'.
Proof.
  intros Hle. unfold classify. destruct (published_at v) as [p|]; [|discriminate].
  destruct (Z.ltb_spec p (now' - lookback * usec_per_hour)); [discriminate|].
  destruct (Z.ltb_spec p (now - lookback * usec_per_hour)); [lia|].
  destruct (negb _); [discriminate|].
  destruct (passes_threshold _ _); [|discriminate].
  intros [= <-]. eexists. split; reflexivity.
Qed.

Lemma outliers_of_later cfg now now' samples :
  now <= now' ->
  incl (map candidate_url (outliers_of cfg now' samples))
       (map candidate_url (outliers_of cfg now samples)).
Proof.
  intros Hle u Hu. apply in_map_iff in Hu. destruct Hu as [c' [<- Hc']].
  unfold outliers_of in *. apply in_flat_map in Hc'. destruct Hc' as [s [Hs Hc']].
  apply find_outliers_In in Hc'. destruct Hc' as [v [Hv Hc']].
  destruct (classify_later _ _ _ _ _ _ _ _ Hle Hc') as [c [Hc Hu]].
  rewrite <- Hu. apply in_map. apply in_flat_map. exists s. split; [exact Hs|].
  apply find_outliers_In. eauto.
Qed.

Lemma outliers_of_have_urls cfg now samples :
  Forall (fun s => Forall has_url (snd s)) samples ->
  Forall (fun c => Str.truthy (candidate_url c) = true) (outliers_of cfg now samples).
Proof.
  intros H. apply Forall_forall. intros c Hc.
  unfold outliers_of in Hc. apply in_flat_map in Hc. destruct Hc as [s [Hs Hc]].
  apply find_outliers_video in Hc. destruct Hc as [Hin _].
  rewrite Forall_forall in H. specialize (H s Hs). rewrite Forall_forall in H.
  exact (H _ Hin).
Qed.

Lemma live_app s1 s2 : live (s1 ++ s2) = live s1 ++ live s2.
Proof. apply filter_app. Qed.

Lemma get_existing_video_urls_configured cfg w :
  notion_configured cfg = true ->
  get_existing_video_urls cfg w =
  list_urls (S (List.length (store w))) (empty_set string) None w.
Proof. intros H. unfold get_existing_video_urls. now rewrite H. Qed.

Lemma known_live_url s u :
  set_In u (add_urls (live s) (empty_set string)) <->
  In u (live_urls s) /\ Str.truthy u = true.
Proof.
  rewrite add_urls_mem. unfold live_urls. rewrite in_map_iff. split.
  - intros [[] | [p [Hp [Hu Ht]]]]. split; [exists p; auto | exact Ht].
  - intros [[p [Hu Hp]] Ht]. right. exists p. auto.
Qed.

Lemma all_known s outliers :
  (forall c, In c outliers ->
     Str.truthy (candidate_url c) = true /\ In (candidate_url c) (live_urls s)) ->
  filter (not_known (add_urls (live s) (empty_set string))) outliers = [].
Proof.
  induction outliers as [|c cs IH]; intros Hall; [reflexivity|]. simpl.
  destruct (not_known _ c) eqn:E.
  - exfalso. apply not_known_spec in E. apply E. apply known_live_url.
    destruct (Hall c (or_introl eq_refl)). auto.
  - apply IH. intros c' Hc'. apply Hall. now right.
Qed.

Lemma creates_of_sweep evs :
  Forall (fun e => is_sweep_request e = true) evs -> creates_of evs = [].
Proof.
  induction 1 as [|e evs He _ IH]; [reflexivity|].
  destruct e; simpl in *; try discriminate; exact IH.
Qed.

Lemma delete_old_entries_creates cfg now days w :
  creates_of (trace (delete_old_entries cfg now days w)) = creates_of (trace w).
Proof.
  destruct (delete_old_entries_effects cfg now days w) as [ids [evs [_ [_ [-> Hq]]]]].
  now rewrite creates_of_app, (creates_of_sweep _ Hq), app_nil_r.
Qed.

Lemma sort_by_score_perm l : Permutation l (sort_by_score l).
Proof.
  induction l as [|x l IH]; simpl; [constructor|].
  rewrite <- insert_desc_perm. now constructor.
Qed.

Lemma sort_by_score_In l c : In c (sort_by_score l) <-> In c l.
Proof.
  pose proof (sort_by_score_perm l) as Hp. split.
  - apply Permutation_in. now symmetry.
  - now apply Permutation_in.
Qed.

Lemma main_unfold cfg yt channels_config now w :
  main cfg yt channels_config now w =
  let wa := delete_old_entries cfg now 7 w in
  match channels_config with
  | [] => Some wa
  | _ =>
      if negb (env_set (YOUTUBE_API_KEY cfg)) then Some wa
      else sync_outliers cfg now
             (fst (process_channels cfg yt now channels_config wa))
             (snd (process_channels cfg yt now channels_config wa))
  end.
Proof.
  unfold main, sync_outliers. destruct channels_config as [|e es]; [reflexivity|].
  destruct (negb _); [reflexivity|].
  destruct (process_channels cfg yt now (e :: es) _) as [all w']. reflexivity.
Qed.

Lemma create_each_effects now new : forall w,
  exists extra,
    store (snd (create_each now new w)) = store w ++ extra /\
    List.length extra = fst (create_each now new w) /\
    Forall (fun p => archived p = false /\ found_date p = now /\
                     In (page_url p) (map candidate_url new)) extra.
Proof.
  induction new as [|c new IH]; intros w.
  - exists []. simpl. now rewrite app_nil_r.
  - cbn [create_each].
    destruct (notion_create_effects (url (video c)) now w) as [_ [Hok Hno]].
    destruct (notion_create (url (video c)) now w) as [r w1]. simpl in Hok, Hno.
    destruct (IH w1) as [extra [Hs [Hn Hf]]].
    destruct (create_each now new w1) as [n w2]. simpl in Hs, Hn.
    assert (Hf' : Forall (fun p => archived p = false /\ found_date p = now /\
                            In (page_url p) (map candidate_url (c :: new))) extra).
    { eapply Forall_impl; [|exact Hf]. simpl. intros p [H1 [H2 H3]]. auto. }
    destruct (fst (next_outcome w)) eqn:Eo.
    + destruct Hok as [-> Hs1]; [reflexivity|].
      exists (new_page (store w) (url (video c)) now :: extra). simpl.
      split; [rewrite Hs, Hs1, <- app_assoc; reflexivity|].
      split; [now rewrite Hn|].
      constructor; [simpl; auto | exact Hf'].
    + destruct Hno as [Hr Hs1]; [discriminate|].
      exists extra. rewrite <- Hs1, <- Hs.
      destruct r as [[]| |]; simpl; auto. congruence.
    + destruct Hno as [Hr Hs1]; [discriminate|].
      exists extra. rewrite <- Hs1, <- Hs.
      destruct r as [[]| |]; simpl; auto. congruence.
Qed.

Lemma list_urls_sound fuel : forall acc cur w urls w',
  list_urls fuel acc cur w = Some (urls, w') ->
  (forall u, set_In u acc -> In u (live_urls (store w)) /\ Str.truthy u = true) ->
  forall u, set_In u urls -> In u (live_urls (store w)) /\ Str.truthy u = true.
Proof.
  induction fuel as [|fuel IH]; intros acc cur w urls w' H Hacc; [discriminate|].
  cbn [list_urls] in H.
  pose proof (notion_query_answer None cur w) as Ha.
  pose proof (notion_query_store None cur w) as Hs.
  destruct (notion_query None cur w) as [r w1]. simpl in Ha, Hs.
  destruct r as [data| |]; try (injection H as <- <-; exact Hacc).
  assert (Hd : data = answer_query None cur (store w)).
  { destruct (fst (next_outcome w)); simpl in Ha; congruence. }
  assert (Hnew : forall u, set_In u (add_urls (results data) acc) ->
                   In u (live_urls (store w)) /\ Str.truthy u = true).
  { intros u Hu. apply add_urls_mem in Hu. destruct Hu as [Hu | [p [Hp [Hpu Ht]]]].
    - now apply Hacc.
    - split; [|exact Ht]. rewrite <- Hpu. apply in_map. subst data.
      unfold answer_query in Hp. cbn [results] in Hp.
      apply incl_firstn in Hp. fold (live (store w)) in Hp.
      rewrite <- (firstn_skipn (offset_of cur) (live (store w))).
      apply in_or_app. right. exact Hp. }
  destruct (has_more data); [|injection H as <- <-; exact Hnew].
  rewrite <- Hs. apply (IH _ _ _ _ _ H). now rewrite Hs.
Qed.

(** With credentials, a first run leaves every candidate's URL among the live
    pages or among the URLs it issued a create request for. *)
Lemma sync_outliers_first_run cfg now all_outliers x w1 :
  notion_configured cfg = true ->
  sync_outliers cfg now all_outliers x = Some w1 ->
  exists written,
    creates_of (trace w1) = creates_of (trace x) ++ written /\
    forall c, In c all_outliers ->
      In (candidate_url c) (live_urls (store w1)) \/ In (candidate_url c) written.
Proof.
  intros Hcfg Hrun. unfold sync_outliers in Hrun.
  destruct all_outliers as [|c0 cs] eqn:E.
  { injection Hrun as <-. exists []. rewrite app_nil_r. split; [reflexivity|].
    intros c []. }
  rewrite <- E in *. clear E c0 cs.
  destruct (get_existing_video_urls_total cfg x) as [known [x1 Hk]].
  destruct (send_to_notion_unfold cfg now (sort_by_score all_outliers) x known x1 Hcfg Hk)
    as [b Hb].
  rewrite Hb in Hrun. injection Hrun as <-.
  rewrite get_existing_video_urls_configured in Hk by exact Hcfg.
  destruct (list_urls_effects _ _ _ _ _ _ Hk) as [Hs1 [evs [Ht1 [Hq _]]]].
  set (new := filter (not_known known) (sort_by_score all_outliers)).
  destruct (create_each_effects now new x1) as [extra [Hs _]].
  exists (map candidate_url new). split.
  - rewrite create_each_trace, creates_of_app, creates_of_creates, Ht1,
      creates_of_app, (creates_of_queries _ Hq), app_nil_r. reflexivity.
  - intros c Hc. destruct (not_known known c) eqn:Ek.
    + right. apply in_map. apply filter_In. split; [|exact Ek].
      now apply sort_by_score_In.
    + left. assert (Hin : set_In (candidate_url c) known).
      { destruct (set_In_dec string_dec (candidate_url c) known) as [H | H]; [exact H|].
        apply not_known_spec in H. congruence. }
      apply (list_urls_sound _ _ _ _ _ _ Hk) in Hin; [|intros u []].
      destruct Hin as [Hin _]. rewrite Hs, Hs1. unfold live_urls.
      rewrite live_app, map_app. apply in_or_app. now left.
Qed.

(** A run whose listing succeeds and whose candidates all have their URL
    among the live pages writes nothing. *)
Lemma sync_outliers_all_known cfg now all_outliers x n :
  first_ok n x -> (0 < n)%nat ->
  (List.length (live (store x)) <= n * page_size)%nat ->
  (notion_configured cfg = true ->
   forall c, In c all_outliers ->
     Str.truthy (candidate_url c) = true /\ In (candidate_url c) (live_urls (store x))) ->
  exists w2,
    sync_outliers cfg now all_outliers x = Some w2 /\
    store w2 = store x /\
    creates_of (trace w2) = creates_of (trace x).
Proof.
  intros Hok Hpos Hlen Hall. unfold sync_outliers.
  destruct all_outliers as [|c0 cs] eqn:E; [eauto|].
  rewrite <- E in *. clear E c0 cs.
  destruct (notion_configured cfg) eqn:Hcfg.
  - destruct (get_existing_video_urls_complete cfg x n Hcfg Hok Hpos Hlen) as [x1 Hk].
    destruct (send_to_notion_unfold cfg now (sort_by_score all_outliers) x _ x1 Hcfg Hk)
      as [b Hb].
    rewrite all_known in Hb.
    + simpl in Hb. rewrite Hb. exists x1. split; [reflexivity|].
      rewrite get_existing_video_urls_configured in Hk by exact Hcfg.
      destruct (list_urls_effects _ _ _ _ _ _ Hk) as [Hs1 [evs [-> [Hq _]]]].
      split; [exact Hs1|].
      now rewrite creates_of_app, (creates_of_queries _ Hq), app_nil_r.
    + intros c Hc. apply (proj1 (sort_by_score_In _ _)) in Hc. now apply (Hall eq_refl).
  - unfold send_to_notion. rewrite Hcfg. simpl. eauto.
Qed.

(** A live page that the sweep's query does not select is still live after
    the sweep. *)
Lemma spared_by_sweep cfg now days w p :
  In p (store w) -> archived p = false ->
  ~ selected_by_sweep now days (store w) p ->
  In (page_url p) (live_urls (store (delete_old_entries cfg now days w))).
Proof.
  intros Hp Ha Hsel.
  destruct (delete_old_entries_effects cfg now days w) as [ids [evs [Hin [Hs _]]]].
  rewrite Hs. unfold live_urls. apply in_map. unfold live. apply filter_In.
  assert (Hkeep : archive_in ids p = p).
  { unfold archive_in. destruct (existsb (Nat.eqb (page_id p)) ids) eqn:E; [|reflexivity].
    exfalso. apply Hsel. apply existsb_exists in E. destruct E as [i [Hi He]].
    apply Nat.eqb_eq in He. subst i. now apply Hin. }
  split.
  - rewrite <- Hkeep. now apply in_map.
  - unfold satisfies. now rewrite Ha.
Qed.

(** C2, as the code has it. A second run, not earlier than the first and on
    unchanged feeds, creates no page when every create request of the first
    run succeeded (each URL it asked to create is the URL of a live page
    afterwards), the second run's sweep selects no live page that carries the
    URL of one of its candidates, and the second run's listing succeeds. *)
Theorem second_run_writes_nothing cfg yt channels_config now now' w w1 written n :
  now <= now' ->
  main cfg yt channels_config now w = Some w1 ->
  creates_of (trace w1) = creates_of (trace w) ++ written ->
  (forall u, In u written -> In u (live_urls (store w1))) ->
  (forall c p,
     In c (candidates_at cfg yt channels_config now') ->
     In p (store w1) -> archived p = false -> page_url p = candidate_url c ->
     ~ selected_by_sweep now' 7 (store w1) p) ->
  first_ok n (sync_world cfg yt channels_config now' w1) ->
  (0 < n)%nat ->
  (List.length (live (store (sync_world cfg yt channels_config now' w1)))
     <= n * page_size)%nat ->
  exists w2,
    main cfg yt channels_config now' w1 = Some w2 /\
    creates_of (trace w2) = creates_of (trace w1) /\
    store w2 = store (delete_old_entries cfg now' 7 w1).
Proof.
  intros Hle Hrun Hwritten Hlive Hspared Hok Hpos Hlen.
  rewrite main_unfold in Hrun. rewrite main_unfold. cbv zeta in *.
  unfold sync_world, candidates_at in *.
  set (wa := delete_old_entries cfg now 7 w) in *.
  set (wa' := delete_old_entries cfg now' 7 w1) in *.
  assert (Hca : creates_of (trace wa) = creates_of (trace w))
    by apply delete_old_entries_creates.
  assert (Hca' : creates_of (trace wa') = creates_of (trace w1))
    by apply delete_old_entries_creates.
  destruct (process_channels_pure cfg yt channels_config)
    as [samples [evs [Hurl [Hcre Hch]]]].
  destruct channels_config as [|e es]; [eauto|].
  destruct (negb (env_set (YOUTUBE_API_KEY cfg))); [eauto|].
  rewrite Hch in Hrun, Hspared, Hok, Hlen. rewrite Hch. cbn [fst snd] in *.
  destruct (sync_outliers_all_known cfg now' (outliers_of cfg now' samples)
              (log_all evs wa') n Hok Hpos Hlen) as [w2 [Hrun2 [Hs2 Hc2]]].
  - intros Hcfg c Hc.
    pose proof (outliers_of_have_urls cfg now' samples Hurl) as Ht.
    rewrite Forall_forall in Ht. specialize (Ht c Hc). split; [exact Ht|].
    (* the same URL was a candidate of the first run *)
    pose proof (outliers_of_later cfg now now' samples Hle (candidate_url c)
                  (in_map _ _ _ Hc)) as Ha.
    apply in_map_iff in Ha. destruct Ha as [a [Hau HaA]].
    (* so it is live after the first run *)
    destruct (sync_outliers_first_run cfg now _ (log_all evs wa) w1 Hcfg Hrun)
      as [written1 [Hw1 Hor]].
    assert (Hsame : written1 = written).
    { simpl trace in Hw1. rewrite creates_of_app, Hcre, app_nil_r, Hca in Hw1.
      rewrite Hw1 in Hwritten. now apply app_inv_head in Hwritten. }
    assert (Hin1 : In (candidate_url c) (live_urls (store w1))).
    { rewrite <- Hau. destruct (Hor a HaA) as [H | H]; [exact H|].
      apply Hlive. now rewrite <- Hsame. }
    (* and the second sweep spares a page that carries it *)
    unfold live_urls in Hin1. apply in_map_iff in Hin1. destruct Hin1 as [p [Hpu Hp]].
    unfold live in Hp. apply filter_In in Hp. destruct Hp as [Hp Hsat].
    assert (Hpa : archived p = false).
    { unfold satisfies in Hsat. destruct (archived p); [discriminate | reflexivity]. }
    simpl store. rewrite <- Hpu. apply spared_by_sweep; auto.
    now apply (Hspared c p).
  - exists w2. split; [exact Hrun2|]. split.
    + rewrite Hc2. simpl trace. now rewrite creates_of_app, Hcre, app_nil_r.
    + exact Hs2.
Qed.

Lemma second_run_writes_nothing_witness :
  exists w2,
    main notion_config close_feed [channel_uc1] usec_per_day after_first_run = Some w2 /\
    creates_of (trace w2) = creates_of (trace after_first_run).
Proof.
  destruct (second_run_writes_nothing notion_config close_feed [channel_uc1]
              0 usec_per_day listing_refused_world after_first_run
              [ "https://www.youtube.com/watch?v=a";
                "https://www.youtube.com/watch?v=b" ]%string 1%nat)
    as [w2 [H2 [Hc _]]].
  - vm_compute. discriminate.
  - vm_compute. reflexivity.
  - vm_compute. reflexivity.
  - intros u [<- | [<- | []]]; vm_compute; auto.
  - intros c p _ _ _ _ Hsel. unfold selected_by_sweep in Hsel.
    vm_compute in Hsel. exact Hsel.
  - assert (E : script (sync_world notion_config close_feed [channel_uc1] usec_per_day
                          after_first_run) = []) by (vm_compute; reflexivity).
    intros i _. rewrite E. now destruct i.
  - lia.
  - vm_compute. lia.
  - exists w2. split; [exact H2 | exact Hc].
Defined.

(** C2, as the spec states it, fails: in the first run the create request for
    the first candidate is refused, so only the second candidate is written;
    the second run, on the same feeds and with a listing that succeeds,
    writes the first candidate. *)
Lemma failed_write_retried_counterexample :
  exists w1 w2,
    main notion_config close_feed [channel_uc1] 0 refusing_world = Some w1 /\
    main notion_config close_feed [channel_uc1] 0 w1 = Some w2 /\
    map page_url (store w1) = [ "https://www.youtube.com/watch?v=b" ]%string /\
    script w1 = [] /\
    creates_of (trace w2) =
      creates_of (trace w1) ++ [ "https://www.youtube.com/watch?v=a" ]%string /\
    map page_url (store w2) =
      [ "https://www.youtube.com/watch?v=b"; "https://www.youtube.com/watch?v=a" ]%string.
Proof.
  eexists; eexists. split; [vm_compute; reflexivity|].
  split; [vm_compute; reflexivity|]. repeat split.
Qed.

(** The same happens without any failed write: the archive request for an
    expired page that carries the first candidate's URL is refused in the
    first run, so that candidate is known and skipped and every create
    succeeds; the second run archives the page and then writes the
    candidate. *)
Lemma unarchived_copy_rewritten_example :
  exists w1 w2,
    main notion_config recent_feed [channel_uc1] noon_day_10 archive_refused_world
      = Some w1 /\
    main notion_config recent_feed [channel_uc1] noon_day_10 w1 = Some w2 /\
    creates_of (trace w1) = [ "https://www.youtube.com/watch?v=b" ]%string /\
    live_urls (store w1) =
      [ "https://www.youtube.com/watch?v=a"; "https://www.youtube.com/watch?v=b" ]%string /\
    creates_of (trace w2) =
      creates_of (trace w1) ++ [ "https://www.youtube.com/watch?v=a" ]%string.
Proof.
  eexists; eexists. split; [vm_compute; reflexivity|].
  split; [vm_compute; reflexivity|]. repeat split.
Qed.

(** * Further properties of the script *)

(** ** Channel resolution *)

Lemma startswith_UC_not_at i :
  Str.startswith "UC" i = true -> Str.startswith "@" i = false.
Proof.
  destruct i as [|c i]; [discriminate|]. cbn [Str.startswith].
  destruct (Ascii.eqb_spec "U" c) as [<- | Hne]; [reflexivity | discriminate].
Qed.

(** X1. A handle resolves the same way with and without its [@], and is
    looked up as a handle; every identifier that starts with [UC] is looked up
    as a channel id. *)
Theorem handle_prefix_optional yt w :
  (forall h,
     Str.startswith "@" h = false ->
     Str.startswith "UC" h = false ->
     get_channel_info yt ("@" ++ h) w = get_channel_info yt h w /\
     trace (snd (get_channel_info yt h w)) = trace w ++ [YtChannelsList (ForHandle h)]) /\
  (forall i,
     Str.startswith "UC" i = true ->
     trace (snd (get_channel_info yt i w)) = trace w ++ [YtChannelsList (ById i)]).
Proof.
  split.
  - intros h Hat Huc. unfold get_channel_info.
    change (Str.startswith "@" ("@" ++ h)) with true.
    change (Str.tail ("@" ++ h)) with h.
    rewrite Hat, Huc. cbv iota.
    split; [reflexivity|].
    now destruct (channels_list yt (ForHandle h)) as [[|c cs]|].
  - intros i Huc. unfold get_channel_info.
    rewrite (startswith_UC_not_at i Huc), Huc.
    now destruct (channels_list yt (ById i)) as [[|c cs]|].
Qed.

Lemma handle_prefix_optional_witness :
  get_channel_info close_feed "@geo" empty_world
  = get_channel_info close_feed "geo" empty_world /\
  trace (snd (get_channel_info close_feed "UCUC1" empty_world))
  = [YtChannelsList (ById "UCUC1")].
Proof.
  split.
  - exact (proj1 (proj1 (handle_prefix_optional close_feed empty_world)
                    "geo"%string eq_refl eq_refl)).
  - exact (proj2 (handle_prefix_optional close_feed empty_world)
             "UCUC1"%string eq_refl).
Defined.

(** ** Video details *)

Lemma batches_sizes fuel ids :
  Forall (fun b => (1 <= List.length b <= 50)%nat) (batches fuel ids).
Proof.
  revert ids. induction fuel as [|fuel IH]; intros ids.
  - destruct ids; constructor.
  - destruct ids as [|i ids]; [constructor|]. cbn [batches].
    constructor; [|apply IH].
    rewrite length_firstn. simpl List.length. lia.
Qed.

(** X2. The details of the videos are requested in consecutive batches of at
    least 1 and at most 50 identifiers, which together are exactly the
    identifiers given, in order: every identifier is requested once. *)
Theorem details_requested_in_batches yt video_ids w :
  exists bs,
    issued w (snd (get_video_details yt video_ids w)) (map YtVideosList bs) /\
    List.concat bs = video_ids /\
    Forall (fun b => (1 <= List.length b <= 50)%nat) bs.
Proof.
  unfold get_video_details. destruct video_ids as [|i ids].
  - exists []. simpl. split; [apply issued_refl|]. split; [reflexivity | constructor].
  - exists (batches (List.length (i :: ids)) (i :: ids)).
    split; [apply fetch_batches_issued|].
    split; [apply batches_concat; lia | apply batches_sizes].
Qed.

Lemma string_app_inv_head (p a b : string) :
  (p ++ a = p ++ b)%string -> a = b.
Proof.
  induction p as [|c p IH]; simpl; [auto|]. intros [= H]. auto.
Qed.

Lemma fetch_batches_urls yt bs w :
  Forall (fun v => url v = (watch_prefix ++ id v)%string) (fst (fetch_batches yt bs w)).
Proof.
  revert w. induction bs as [|b bs IH]; intros w; simpl; [constructor|].
  specialize (IH (log (YtVideosList b) w)).
  destruct (fetch_batches yt bs (log (YtVideosList b) w)) as [more w']. simpl in *.
  apply Forall_app. split; [|exact IH].
  destruct (videos_list yt b) as [items|]; [|constructor].
  apply Forall_forall. intros v Hv. apply in_map_iff in Hv.
  destruct Hv as [item [<- _]]. reflexivity.
Qed.

(** X3. The URL of a fetched video is the watch address of its identifier, so two
    fetched videos have the same URL exactly when they have the same
    identifier: the dedup key identifies the video. *)
Theorem url_identifies_video yt video_ids w v v' :
  In v (fst (get_video_details yt video_ids w)) ->
  In v' (fst (get_video_details yt video_ids w)) ->
  url v = (watch_prefix ++ id v)%string /\
  Str.truthy (url v) = true /\
  (url v = url v' <-> id v = id v').
Proof.
  intros Hv Hv'.
  assert (H : Forall (fun v => url v = (watch_prefix ++ id v)%string)
                (fst (get_video_details yt video_ids w))).
  { unfold get_video_details. destruct video_ids; [constructor|].
    apply fetch_batches_urls. }
  rewrite Forall_forall in H. pose proof (H v Hv) as Hu. pose proof (H v' Hv') as Hu'.
  split; [exact Hu|]. split; [now rewrite Hu|].
  rewrite Hu, Hu'. split.
  - apply string_app_inv_head.
  - now intros ->.
Qed.

Lemma url_identifies_video_witness :
  Str.truthy (url (video_of_item (plain_video "a" "Lava lake" 0 999))) = true.
Proof.
  refine (proj1 (proj2 (url_identifies_video close_feed ["a"; "b"]%string empty_world
                          (video_of_item (plain_video "a" "Lava lake" 0 999))
                          (video_of_item (plain_video "a" "Lava lake" 0 999)) _ _)));
    vm_compute; left; reflexivity.
Defined.

(** ** The baseline *)

Lemma sum_views_bounds lo hi videos :
  Forall (fun v => lo <= views v <= hi) videos ->
  lo * Z.of_nat (List.length videos) <= sum_views videos
    <= hi * Z.of_nat (List.length videos).
Proof.
  induction 1 as [|v l Hv _ IH]; simpl sum_views; [simpl; lia|].
  change (List.length (v :: l)) with (S (List.length l)). lia.
Qed.

(** X4. The channel average of an empty sample is 0, and that of a non-empty
    sample lies between the smallest and the largest view count of the
    sample. *)
Theorem average_within_sample_bounds lo hi videos :
  (calculate_channel_average [] == 0)%Q /\
  (videos <> [] ->
   Forall (fun v => lo <= views v <= hi) videos ->
   (inject_Z lo <= calculate_channel_average videos /\
    calculate_channel_average videos <= inject_Z hi)%Q).
Proof.
  split; [reflexivity|].
  intros Hne Hb. pose proof (sum_views_bounds lo hi videos Hb) as [Hlo Hhi].
  unfold calculate_channel_average. destruct videos as [|v l] eqn:E; [congruence|].
  rewrite <- E in *.
  assert (Hn : (0 < inject_Z (Z.of_nat (List.length videos)))%Q).
  { change 0%Q with (inject_Z 0). rewrite <- Zlt_Qlt. subst videos. simpl List.length. lia. }
  split.
  - apply Qle_shift_div_l; [exact Hn|]. rewrite <- inject_Z_mult, <- Zle_Qle. exact Hlo.
  - apply Qle_shift_div_r; [exact Hn|]. rewrite <- inject_Z_mult, <- Zle_Qle. exact Hhi.
Qed.

Lemma average_within_sample_bounds_witness :
  (inject_Z 3 <= calculate_channel_average [scenario_c_video])%Q.
Proof.
  refine (proj1 (proj2 (average_within_sample_bounds 3 3 [scenario_c_video]) _ _)).
  - discriminate.
  - repeat constructor; simpl; lia.
Defined.

(** ** The topic filter *)

Lemma lower_ascii_idempotent c :
  Str.lower_ascii (Str.lower_ascii c) = Str.lower_ascii c.
Proof.
  destruct c as [b0 b1 b2 b3 b4 b5 b6 b7].
  destruct b0, b1, b2, b3, b4, b5, b6, b7; reflexivity.
Qed.

Lemma lower_idempotent s : Str.lower (Str.lower s) = Str.lower s.
Proof.
  induction s as [|c s IH]; simpl; [reflexivity|].
  now rewrite lower_ascii_idempotent, IH.
Qed.

(** X5. The topic filter does not see letter case: lowering the title, or the
    keywords, or giving two titles that differ in case only, leaves its answer
    unchanged. *)
Theorem topic_filter_ignores_case cfg t :
  matches_topic_filter cfg (Str.lower t) = matches_topic_filter cfg t /\
  matches_topic_filter (with_keywords cfg (map Str.lower (TOPIC_KEYWORDS cfg))) t
    = matches_topic_filter cfg t /\
  forall t', Str.lower t' = Str.lower t ->
             matches_topic_filter cfg t' = matches_topic_filter cfg t.
Proof.
  unfold matches_topic_filter. split; [|split].
  - now rewrite lower_idempotent.
  - simpl. destruct (TOPIC_KEYWORDS cfg) as [|k ks]; [reflexivity|].
    set (l := k :: ks). change (map Str.lower l) with (map Str.lower l).
    assert (H : existsb (fun keyword => Str.contains (Str.lower keyword) (Str.lower t))
                  (map Str.lower l)
                = existsb (fun keyword => Str.contains (Str.lower keyword) (Str.lower t)) l).
    { induction l as [|x l IH]; [reflexivity|]. simpl.
      now rewrite lower_idempotent, IH. }
    exact H.
  - intros t' Ht. now rewrite Ht.
Qed.

(** ** The classifier's output *)


(** X7. Without keywords, a channel whose average is zero yields nothing: every
    score is 0 and stays below a positive threshold. *)
Theorem no_cold_start cfg now name videos avg lookback :
  TOPIC_KEYWORDS cfg = [] ->
  (0 < OUTLIER_THRESHOLD cfg)%Q ->
  (avg <= 0)%Q ->
  find_outliers cfg now name videos avg lookback = [].
Proof.
  intros Hk Ht Ha. induction videos as [|v videos IH]; [reflexivity|]. simpl.
  assert (Hc : classify cfg now name avg lookback v = None).
  { unfold classify. destruct (published_at v); [|reflexivity].
    destruct (_ <? _); [reflexivity|].
    destruct (negb _); [reflexivity|].
    unfold passes_threshold, raw_outlier_score. rewrite Hk.
    destruct (Qlt_le_dec 0 avg) as [H | H]; [lra|].
    destruct (Qlt_le_dec 0 (OUTLIER_THRESHOLD cfg)) as [H' | H']; [reflexivity | lra]. }
  now rewrite Hc.
Qed.

Lemma no_cold_start_witness :
  find_outliers (with_keywords notion_config []) 0 "Ch" [scenario_c_video] 0 168 = [].
Proof.
  apply (no_cold_start (with_keywords notion_config []) 0 "Ch" [scenario_c_video] 0 168).
  - reflexivity.
  - reflexivity.
  - apply Qle_refl.
Defined.

(** ** The sweep *)

Lemma archive_in_fields ids p :
  page_id (archive_in ids p) = page_id p /\
  page_url (archive_in ids p) = page_url p /\
  found_date (archive_in ids p) = found_date p /\
  (archived p = true -> archived (archive_in ids p) = true).
Proof. unfold archive_in. destruct (existsb _ ids); simpl; auto. Qed.

(** X9. The sweep only ever sets the archived flag: it removes no page, adds
    none, changes no identifier, URL or found date, and never brings an
    archived page back.  Without store credentials it does nothing at all. *)
Theorem sweep_only_archives cfg now days w :
  let w' := delete_old_entries cfg now days w in
  map page_id (store w') = map page_id (store w) /\
  map page_url (store w') = map page_url (store w) /\
  map found_date (store w') = map found_date (store w) /\
  Forall2 (fun p p' => archived p = true -> archived p' = true) (store w) (store w') /\
  (notion_configured cfg = false -> w' = w).
Proof.
  intros w'. subst w'.
  destruct (delete_old_entries_effects cfg now days w) as [ids [evs [_ [Hs _]]]].
  rewrite Hs. rewrite !map_map.
  split; [|split; [|split; [|split]]].
  - apply map_ext. intros p. now destruct (archive_in_fields ids p) as [H1 [H2 [H3 H4]]].
  - apply map_ext. intros p. now destruct (archive_in_fields ids p) as [H1 [H2 [H3 H4]]].
  - apply map_ext. intros p. now destruct (archive_in_fields ids p) as [H1 [H2 [H3 H4]]].
  - clear Hs. induction (store w) as [|p s IH]; simpl; constructor; auto.
    now destruct (archive_in_fields ids p) as [H1 [H2 [H3 H4]]].
  - intros Hcfg. unfold delete_old_entries. now rewrite Hcfg.
Qed.

Lemma sweep_only_archives_witness :
  delete_old_entries (script_config None None None) noon_day_10 7 (world_of [old_page])
  = world_of [old_page].
Proof.
  exact (proj2 (proj2 (proj2 (proj2
    (sweep_only_archives (script_config None None None) noon_day_10 7
       (world_of [old_page]))))) eq_refl).
Defined.

(** X10. When the sweep's query does not succeed, no archive request is issued and
    the store is left as it was. *)
Theorem sweep_query_failure cfg now days w :
  notion_configured cfg = true ->
  nth 0 (script w) OK <> OK ->
  store (delete_old_entries cfg now days w) = store w /\
  trace (delete_old_entries cfg now days w)
    = trace w ++ [NotionQuery (Some (date_of (now - days * usec_per_day))) None].
Proof.
  intros Hcfg Hfail. unfold delete_old_entries. rewrite Hcfg. simpl negb. cbv iota.
  destruct (query_fails (Some (date_of (now - days * usec_per_day))) None w)
    as [r [w1 [-> [Hr [Hs [_ Ht]]]]]].
  - unfold next_outcome. destruct (script w); simpl in *; auto.
  - destruct Hr as [-> | ->]; auto.
Qed.

Lemma sweep_query_failure_witness :
  store (delete_old_entries notion_config noon_day_10 7
           {| store := [old_page]; script := [Raises]; trace := [] |})
  = [old_page].
Proof.
  refine (proj1 (sweep_query_failure notion_config noon_day_10 7
                   {| store := [old_page]; script := [Raises]; trace := [] |} _ _)).
  - reflexivity.
  - discriminate.
Defined.

Lemma nth_tl {A : Type} (i : nat) (l : list A) (d : A) :
  nth i (List.tl l) d = nth (S i) l d.
Proof. destruct l; [now destruct i | reflexivity]. Qed.

Lemma next_outcome_nth w : fst (next_outcome w) = nth 0 (script w) OK.
Proof. unfold next_outcome. now destruct (script w). Qed.

Lemma next_outcomes_S n w w1 :
  script w1 = List.tl (script w) ->
  next_outcomes (S n) w = nth 0 (script w) OK :: next_outcomes n w1.
Proof.
  intros Hs. unfold next_outcomes. cbn [seq map]. f_equal.
  rewrite <- seq_shift, map_map. apply map_ext. intros i.
  now rewrite Hs, nth_tl.
Qed.

Lemma archived_by_cons page pages w w1 :
  script w1 = List.tl (script w) ->
  archived_by (page :: pages) w =
  (if answered_200 (page, nth 0 (script w) OK) then [page_id page] else [])
  ++ archived_by pages w1.
Proof.
  intros Hs. unfold archived_by. cbn [List.length].
  rewrite (next_outcomes_S _ w w1 Hs). cbn [combine filter].
  now destruct (answered_200 (page, nth 0 (script w) OK)).
Qed.

(** One iteration of the archive loop that does not raise: the request is
    issued, and the page is archived exactly when the answer is 200. *)
Lemma archive_step page w :
  nth 0 (script w) OK <> Raises ->
  exists r w1,
    notion_archive (page_id page) w = (r, w1) /\ r <> Exception /\
    script w1 = List.tl (script w) /\
    trace w1 = trace w ++ [NotionArchive (page_id page)] /\
    store w1 =
      map (archive_in (if answered_200 (page, nth 0 (script w) OK)
                       then [page_id page] else [])) (store w).
Proof.
  intros Hno.
  destruct (notion_archive_effects (page_id page) w) as [Ht [Hc [Hok [Hnok Hex]]]].
  rewrite next_outcome_nth in *.
  destruct (notion_archive (page_id page) w) as [r w1]. simpl in *.
  exists r, w1. split; [reflexivity|].
  split; [intros Hr; apply Hex in Hr; congruence|].
  split; [exact Hc|]. split; [exact Ht|].
  unfold answered_200. cbn [snd].
  destruct (nth 0 (script w) OK) eqn:Eo.
  - destruct Hok as [_ ->]; [reflexivity|]. apply map_ext. intros p.
    rewrite <- archive_in_cons. unfold archive_in at 1. reflexivity.
  - destruct Hnok as [_ ->]; [discriminate|]. now rewrite archive_in_nil.
  - congruence.
Qed.

Lemma archive_in_app ids1 ids2 s :
  map (archive_in ids2) (map (archive_in ids1) s) = map (archive_in (ids1 ++ ids2)) s.
Proof.
  rewrite map_map. apply map_ext. intros p. unfold archive_in.
  rewrite existsb_app.
  destruct (existsb (Nat.eqb (page_id p)) ids1) eqn:E1; simpl.
  - now destruct (existsb _ ids2).
  - reflexivity.
Qed.

(** X11. In the archive loop every page gets its request, in order, as long
    as no request raises, whatever mix of accepted and refused requests occurs:
    a refused request is skipped and the loop goes on, and the pages archived
    are exactly those whose request was answered with status 200.  An
    exception ends the loop: the pages after the one whose request raised get
    no request, and the pages archived are those answered with 200 before
    it. *)
Theorem archive_loop_failures pages w :
  ((forall i, (i < List.length pages)%nat -> nth i (script w) OK <> Raises) ->
   trace (archive_each pages w) = trace w ++ map NotionArchive (map page_id pages) /\
   store (archive_each pages w) = map (archive_in (archived_by pages w)) (store w)) /\
  (forall k,
     (forall i, (i < k)%nat -> nth i (script w) OK <> Raises) ->
     nth k (script w) OK = Raises ->
     (k < List.length pages)%nat ->
     trace (archive_each pages w)
       = trace w ++ map NotionArchive (firstn (S k) (map page_id pages)) /\
     store (archive_each pages w)
       = map (archive_in (archived_by (firstn k pages) w)) (store w)).
Proof.
  split.
  - revert w. induction pages as [|page pages IH]; intros w Hno.
    + simpl. now rewrite app_nil_r, archive_in_nil.
    + cbn [archive_each].
      destruct (archive_step page w) as [r [w1 [Hr [Hne [Hc [Ht Hs]]]]]].
      { apply Hno. simpl. lia. }
      rewrite Hr.
      destruct (IH w1) as [Ht' Hs'].
      { intros i Hi. rewrite Hc, nth_tl. apply Hno. simpl. lia. }
      assert (Hgoal :
        trace (archive_each pages w1)
          = trace w ++ map NotionArchive (map page_id (page :: pages)) /\
        store (archive_each pages w1)
          = map (archive_in (archived_by (page :: pages) w)) (store w)).
      { split.
        - rewrite Ht', Ht, <- app_assoc. reflexivity.
        - rewrite Hs', Hs, archive_in_app, (archived_by_cons page pages w w1 Hc).
          reflexivity. }
      destruct r; [exact Hgoal | exact Hgoal | congruence].
  - intros k. revert w pages. induction k as [|k IH]; intros w pages Hpre Hk Hlen;
      (destruct pages as [|page pages]; [simpl in Hlen; lia|]); cbn [archive_each].
    + destruct (notion_archive_effects (page_id page) w) as [Ht [_ [_ [Hnok Hex]]]].
      rewrite next_outcome_nth in *.
      destruct (notion_archive (page_id page) w) as [r w1]. simpl in Ht, Hnok, Hex.
      destruct Hnok as [_ Hs]; [congruence|].
      apply Hex in Hk. subst r. simpl.
      split; [exact Ht|]. now rewrite Hs, archive_in_nil.
    + destruct (archive_step page w) as [r [w1 [Hr [Hne [Hc [Ht Hs]]]]]].
      { apply Hpre. lia. }
      rewrite Hr.
      destruct (IH w1 pages) as [Ht' Hs'].
      { intros i Hi. rewrite Hc, nth_tl. apply Hpre. lia. }
      { now rewrite Hc, nth_tl. }
      { simpl in Hlen. lia. }
      assert (Hgoal :
        trace (archive_each pages w1)
          = trace w ++ map NotionArchive (firstn (S (S k)) (map page_id (page :: pages))) /\
        store (archive_each pages w1)
          = map (archive_in (archived_by (firstn (S k) (page :: pages)) w)) (store w)).
      { split.
        - rewrite Ht', Ht, <- app_assoc. reflexivity.
        - cbn [firstn].
          rewrite Hs', Hs, archive_in_app,
            (archived_by_cons page (firstn k pages) w w1 Hc).
          reflexivity. }
      destruct r; [exact Hgoal | exact Hgoal | congruence].
Qed.

Lemma archive_loop_failures_witness :
  store (archive_each [old_page; numbered_page 0 1]
           {| store := [old_page; numbered_page 0 1]; script := [NotOK; OK]; trace := [] |})
  = map (archive_in
           (archived_by [old_page; numbered_page 0 1]
              {| store := [old_page; numbered_page 0 1]; script := [NotOK; OK]; trace := [] |}))
        [old_page; numbered_page 0 1] /\
  trace (archive_each [old_page; numbered_page 0 1]
           {| store := [old_page; numbered_page 0 1]; script := [Raises]; trace := [] |})
  = [NotionArchive 0].
Proof.
  split.
  - refine (proj2 (proj1 (archive_loop_failures [old_page; numbered_page 0 1]
             {| store := [old_page; numbered_page 0 1]; script := [NotOK; OK]; trace := [] |})
             _)).
    intros [|[|i]] Hi; simpl in *; try discriminate; lia.
  - refine (proj1 (proj2 (archive_loop_failures [old_page; numbered_page 0 1]
             {| store := [old_page; numbered_page 0 1]; script := [Raises]; trace := [] |})
             0%nat _ _ _)).
    + intros i Hi. lia.
    + reflexivity.
    + simpl. lia.
Defined.

(** ** The known set *)

(** X12. When every listing request succeeds, the known set is exactly the set of
    non-empty URLs of the pages that are not archived, whatever the number of
    result pages; the listing leaves the store as it was.  Without store
    credentials the known set is empty and no request is issued. *)
Theorem known_set_is_live_urls cfg w :
  (notion_configured cfg = false ->
   get_existing_video_urls cfg w = Some (empty_set string, w)) /\
  (forall n,
     notion_configured cfg = true ->
     first_ok n w -> (0 < n)%nat ->
     (List.length (live (store w)) <= n * page_size)%nat ->
     exists known w1,
       get_existing_video_urls cfg w = Some (known, w1) /\
       store w1 = store w /\
       forall u, set_In u known <-> In u (live_urls (store w)) /\ Str.truthy u = true).
Proof.
  split.
  - intros Hcfg. unfold get_existing_video_urls. now rewrite Hcfg.
  - intros n Hcfg Hok Hpos Hlen.
    destruct (get_existing_video_urls_complete cfg w n Hcfg Hok Hpos Hlen) as [w1 Hw1].
    exists (add_urls (live (store w)) (empty_set string)), w1.
    split; [exact Hw1|]. split.
    + rewrite get_existing_video_urls_configured in Hw1 by exact Hcfg.
      now destruct (list_urls_effects _ _ _ _ _ _ Hw1).
    + intros u. apply known_live_url.
Qed.

Lemma known_set_is_live_urls_witness :
  exists known w1,
    get_existing_video_urls notion_config
      {| store := map (numbered_page 0) (seq 0 101); script := []; trace := [] |}
      = Some (known, w1) /\
    List.length known = 101%nat.
Proof.
  destruct (proj2 (known_set_is_live_urls notion_config
              {| store := map (numbered_page 0) (seq 0 101); script := []; trace := [] |})
              2%nat) as [known [w1 [H _]]].
  - reflexivity.
  - intros i _. simpl. now destruct i.
  - lia.
  - vm_compute. lia.
  - exists known, w1. split; [exact H|].
    assert (E : get_existing_video_urls notion_config
                  {| store := map (numbered_page 0) (seq 0 101); script := []; trace := [] |}
                = Some (known, w1)) by exact H.
    vm_compute in E. injection E as <- _. reflexivity.
Defined.

(** ** The writer's report *)


(** X14. The writer only appends: the pages already in the store are untouched,
    and each page it adds is live, dated now, and carries the URL of a
    candidate outside the known set.  Its flag is false without credentials,
    true when there was nothing new to write, and otherwise true exactly when
    at least one page was added. *)
Theorem writer_appends_and_reports cfg now outliers w :
  exists known w1 b w' extra,
    get_existing_video_urls cfg w = Some (known, w1) /\
    send_to_notion cfg now outliers w = Some (b, w') /\
    store w' = store w ++ extra /\
    Forall (fun p => archived p = false /\ found_date p = now /\
                     In (page_url p)
                        (map candidate_url (filter (not_known known) outliers))) extra /\
    (notion_configured cfg = false -> b = false /\ w' = w) /\
    (notion_configured cfg = true ->
     filter (not_known known) outliers = [] -> b = true /\ extra = []) /\
    (notion_configured cfg = true ->
     filter (not_known known) outliers <> [] -> (b = true <-> extra <> [])).
Proof.
  destruct (get_existing_video_urls_total cfg w) as [known [w1 Hk]].
  destruct (notion_configured cfg) eqn:Hcfg.
  - assert (Hs1 : store w1 = store w).
    { pose proof Hk as Hk'.
      rewrite get_existing_video_urls_configured in Hk' by exact Hcfg.
      now destruct (list_urls_effects _ _ _ _ _ _ Hk'). }
    unfold send_to_notion. rewrite Hcfg, Hk. simpl negb. cbv iota.
    destruct (create_each_effects now (filter (not_known known) outliers) w1)
      as [extra [Hs [Hn Hf]]].
    destruct (filter (not_known known) outliers) as [|c cs] eqn:En.
    + exists known, w1, true, w1, []. simpl in Hn.
      split; [reflexivity|]. split; [reflexivity|].
      split; [now rewrite app_nil_r|]. split; [constructor|].
      split; [discriminate|]. split; [auto|]. intros _ H. rewrite En in H. congruence.
    + destruct (create_each now (c :: cs) w1) as [n w2] eqn:Ec. simpl in Hs, Hn.
      exists known, w1, (Nat.ltb 0 n), w2, extra.
      split; [reflexivity|]. split; [reflexivity|]. split; [congruence|].
      split; [rewrite En; exact Hf|]. split; [discriminate|].
      split; [intros _ H; rewrite En in H; discriminate|].
      intros _ _. rewrite Nat.ltb_lt, <- Hn. destruct extra; simpl; split;
        intros; try lia; try congruence.
  - exists known, w1, false, w, [].
    unfold send_to_notion. rewrite Hcfg. simpl. rewrite app_nil_r.
    repeat split; auto; try discriminate.
Qed.

Lemma writer_appends_and_reports_witness :
  exists b w',
    send_to_notion (script_config None None None) 0 close_ranking empty_world
      = Some (b, w') /\
    b = false /\ w' = empty_world.
Proof.
  destruct (writer_appends_and_reports (script_config None None None) 0 close_ranking
              empty_world) as [known [w1 [b [w' [extra [_ [Hs [_ [_ [Hno _]]]]]]]]]].
  exists b, w'. split; [exact Hs|]. apply Hno. reflexivity.
Defined.

(** ** The cycle as a whole *)

Lemma list_urls_requests fuel : forall acc cur w urls w',
  list_urls fuel acc cur w = Some (urls, w') ->
  exists evs, trace w' = trace w ++ evs /\
              Forall (fun e => is_sync_request e = true) evs.
Proof.
  induction fuel as [|fuel IH]; intros acc cur w urls w' H; [discriminate|].
  cbn [list_urls] in H.
  pose proof (notion_query_trace None cur w) as Ht.
  destruct (notion_query None cur w) as [r w1]. simpl in Ht.
  assert (Hone : exists evs, trace w1 = trace w ++ evs /\
                   Forall (fun e => is_sync_request e = true) evs).
  { exists [NotionQuery None cur]. split; [exact Ht | repeat constructor]. }
  destruct r as [data| |]; try (injection H as <- <-; exact Hone).
  destruct (has_more data); [|injection H as <- <-; exact Hone].
  destruct (IH _ _ _ _ _ H) as [evs [Ht' Hq]].
  exists (NotionQuery None cur :: evs).
  split; [rewrite Ht', Ht, <- app_assoc; reflexivity | constructor; auto].
Qed.

Lemma send_to_notion_effects cfg now outliers w :
  exists b w' extra evs,
    send_to_notion cfg now outliers w = Some (b, w') /\
    store w' = store w ++ extra /\
    Forall (fun p => archived p = false /\ found_date p = now) extra /\
    trace w' = trace w ++ evs /\
    Forall (fun e => is_sync_request e = true) evs /\
    (notion_configured cfg = false -> w' = w).
Proof.
  destruct (notion_configured cfg) eqn:Hcfg.
  - destruct (get_existing_video_urls_total cfg w) as [known [w1 Hk]].
    destruct (send_to_notion_unfold cfg now outliers w known w1 Hcfg Hk) as [b Hb].
    rewrite get_existing_video_urls_configured in Hk by exact Hcfg.
    destruct (list_urls_effects _ _ _ _ _ _ Hk) as [Hs1 _].
    destruct (list_urls_requests _ _ _ _ _ _ Hk) as [evs1 [Ht1 Hq1]].
    set (new := filter (not_known known) outliers) in *.
    destruct (create_each_effects now new w1) as [extra [Hs [_ Hf]]].
    exists b, (snd (create_each now new w1)), extra,
      (evs1 ++ map NotionCreate (map candidate_url new)).
    split; [exact Hb|]. split; [congruence|]. split.
    { eapply Forall_impl; [|exact Hf]. simpl. tauto. }
    split; [rewrite create_each_trace, Ht1, <- app_assoc; reflexivity|].
    split; [|intros H; discriminate H].
    apply Forall_app. split; [exact Hq1|].
    clear. induction (map candidate_url new); simpl; constructor; auto.
  - exists false, w, [], []. unfold send_to_notion. rewrite Hcfg. simpl.
    rewrite !app_nil_r. repeat split; auto.
Qed.

(** X15. For channel entries given as dictionaries with a non-empty [id], one
    cycle runs to its end and does three things in this order: the sweep's
    requests, then the platform requests, then the listing and create
    requests.  To the store it only archives expired pages and appends new
    live pages dated now: no page is removed or otherwise changed. *)
Theorem cycle_effects cfg yt channels_config now w :
  Forall (fun entry => Str.truthy (entry_id entry) = true) channels_config ->
  exists w' archived_ids extra sweep_evs platform_evs sync_evs,
    main cfg yt channels_config now w = Some w' /\
    store w' = map (archive_in archived_ids) (store w) ++ extra /\
    incl archived_ids (map page_id (filter (expired now 7) (store w))) /\
    Forall (fun p => archived p = false /\ found_date p = now) extra /\
    trace w' = trace w ++ sweep_evs ++ platform_evs ++ sync_evs /\
    Forall (fun e => is_sweep_request e = true) sweep_evs /\
    Forall (fun e => is_platform_request e = true) platform_evs /\
    Forall (fun e => is_sync_request e = true) sync_evs.
Proof.
  intros _. rewrite main_unfold. cbv zeta.
  destruct (delete_old_entries_effects cfg now 7 w) as [ids [evs1 [Hin [Hs [Ht Hq]]]]].
  set (wa := delete_old_entries cfg now 7 w) in *.
  assert (Hstop : exists w' archived_ids extra sweep_evs platform_evs sync_evs,
            Some wa = Some w' /\
            store w' = map (archive_in archived_ids) (store w) ++ extra /\
            incl archived_ids (map page_id (filter (expired now 7) (store w))) /\
            Forall (fun p => archived p = false /\ found_date p = now) extra /\
            trace w' = trace w ++ sweep_evs ++ platform_evs ++ sync_evs /\
            Forall (fun e => is_sweep_request e = true) sweep_evs /\
            Forall (fun e => is_platform_request e = true) platform_evs /\
            Forall (fun e => is_sync_request e = true) sync_evs).
  { exists wa, ids, [], evs1, [], []. rewrite !app_nil_r.
    repeat split; auto. }
  destruct channels_config as [|e es]; [exact Hstop|].
  destruct (negb (env_set (YOUTUBE_API_KEY cfg))); [exact Hstop|].
  clear Hstop.
  destruct (process_channels_requests cfg yt (e :: es)) as [samples [evs2 [_ [Hp Hch]]]].
  rewrite Hch. cbn [fst snd]. unfold sync_outliers.
  destruct (outliers_of cfg now samples) as [|c cs].
  - exists (log_all evs2 wa), ids, [], evs1, evs2, []. rewrite !app_nil_r.
    simpl. rewrite Ht, <- app_assoc. repeat split; auto.
  - destruct (send_to_notion_effects cfg now (sort_by_score (c :: cs)) (log_all evs2 wa))
      as [b [w' [extra [evs3 [Hsend [Hs3 [Hf [Ht3 [Hq3 _]]]]]]]]].
    rewrite Hsend. exists w', ids, extra, evs1, evs2, evs3.
    split; [reflexivity|]. split; [rewrite Hs3; simpl; now rewrite Hs|].
    split; [exact Hin|]. split; [exact Hf|].
    split; [rewrite Ht3; simpl; rewrite Ht, <- !app_assoc; reflexivity|].
    auto.
Qed.

Lemma cycle_effects_witness :
  exists w',
    main notion_config close_feed [channel_uc1] 0 (world_of [old_page]) = Some w'.
Proof.
  destruct (cycle_effects notion_config close_feed [channel_uc1] 0 (world_of [old_page]))
    as [w' [ids [extra [e1 [e2 [e3 [H _]]]]]]].
  - repeat constructor.
  - exists w'. exact H.
Defined.

(** X16. Without a platform key the cycle is the sweep alone; without store
    credentials it is the platform requests alone, and the store and the
    outcomes to come are left untouched. *)
Theorem cycle_without_credentials cfg yt channels_config now w :
  (env_set (YOUTUBE_API_KEY cfg) = false ->
   main cfg yt channels_config now w = Some (delete_old_entries cfg now 7 w)) /\
  (notion_configured cfg = false ->
   exists w' evs,
     main cfg yt channels_config now w = Some w' /\
     store w' = store w /\ script w' = script w /\
     trace w' = trace w ++ evs /\
     Forall (fun e => is_platform_request e = true) evs).
Proof.
  rewrite main_unfold. cbv zeta. split.
  - intros Hkey. rewrite Hkey. simpl. now destruct channels_config.
  - intros Hcfg.
    assert (Hwa : delete_old_entries cfg now 7 w = w).
    { unfold delete_old_entries. now rewrite Hcfg. }
    rewrite Hwa.
    assert (Hstop : exists w' evs,
              Some w = Some w' /\ store w' = store w /\ script w' = script w /\
              trace w' = trace w ++ evs /\
              Forall (fun e => is_platform_request e = true) evs).
    { exists w, []. rewrite app_nil_r. repeat split; auto. }
    destruct channels_config as [|e es]; [exact Hstop|].
    destruct (negb (env_set (YOUTUBE_API_KEY cfg))); [exact Hstop|].
    destruct (process_channels_requests cfg yt (e :: es)) as [samples [evs [_ [Hp Hch]]]].
    rewrite Hch. cbn [fst snd]. unfold sync_outliers.
    exists (log_all evs w), evs.
    split; [|repeat split; auto].
    destruct (outliers_of cfg now samples) as [|c cs]; [reflexivity|].
    unfold send_to_notion. now rewrite Hcfg.
Qed.

Lemma cycle_without_credentials_witness :
  main (script_config None None None) close_feed [channel_uc1] noon_day_10
    (world_of [old_page])
  = Some (world_of [old_page]).
Proof.
  exact (proj1 (cycle_without_credentials (script_config None None None) close_feed
                  [channel_uc1] noon_day_10 (world_of [old_page])) eq_refl).
Defined.


(** X13. Whatever the listing requests do, the listing returns, leaves the store
    as it was, and the known set holds nothing but non-empty URLs of pages
    that are in the store and not archived. *)
Theorem known_set_sound cfg w :
  exists known w1,
    get_existing_video_urls cfg w = Some (known, w1) /\
    store w1 = store w /\
    forall u, set_In u known -> In u (live_urls (store w)) /\ Str.truthy u = true.
Proof.
  destruct (get_existing_video_urls_total cfg w) as [known [w1 Hk]].
  exists known, w1. split; [exact Hk|].
  unfold get_existing_video_urls in Hk. destruct (negb (notion_configured cfg)).
  - injection Hk as <- <-. split; [reflexivity | intros u []].
  - split.
    + now destruct (list_urls_effects _ _ _ _ _ _ Hk).
    + apply (list_urls_sound _ _ _ _ _ _ Hk). intros u [].
Qed.

Lemma known_set_sound_witness :
  exists known w1,
    get_existing_video_urls notion_config (world_of [old_page]) = Some (known, w1) /\
    forall u, set_In u known -> Str.truthy u = true.
Proof.
  destruct (known_set_sound notion_config (world_of [old_page]))
    as [known [w1 [Hk [_ Hu]]]].
  exists known, w1. split; [exact Hk|]. intros u Hin. exact (proj2 (Hu u Hin)).
Defined.

Lemma topic_filter_ignores_case_witness :
  matches_topic_filter notion_config "LAVA LAKE" = matches_topic_filter notion_config "lava lake".
Proof.
  exact (proj2 (proj2 (topic_filter_ignores_case notion_config "lava lake"))
           "LAVA LAKE"%string eq_refl).
Defined.

